(** * commitgen: the commit-rules package and the program

    A shallow embedding of [pkg/commitrules/rules.go]: the registry of
    conventional-commit types, the prompt builder [GetPrompt], the
    normalizer [CleanCommitMessage] and the validator
    [ValidateCommitMessage], together with the parts of Go's [strings],
    [fmt] and [regexp] packages that these functions call; and of the
    program in [main.go] that uses them: the analyses of the changes,
    the call of the provider and the commit, run against a world that
    answers every command, file access and read of the terminal.

    A Go [string] is an immutable sequence of bytes; it is modelled as a
    list of 8-bit characters.  [len] is [length]. *)

From Stdlib Require Import Ascii String.
From stdpp Require Import gmap strings list pretty.

Local Open Scope char_scope.
Local Open Scope list_scope.
Local Open Scope nat_scope.

Abbreviation gostring := (list ascii).

(** [str "..."] is the Go string literal with the same bytes. *)
Definition str (s : string) : gostring := list_ascii_of_string s.
Arguments str s%_string.

(** Bytes that cannot be written inside a literal here. *)
Definition LF : ascii := "010".       (* line feed *)
Definition DQUOTE : ascii := "034".   (* double quote *)
Definition SQUOTE : ascii := "039".   (* single quote *)

Definition byte_of_Z (z : Z) : ascii := ascii_of_N (Z.to_N z).

(** ** Package [strings] *)
Module strings.

(** [strings.HasPrefix(s, prefix)]. *)
Fixpoint HasPrefix (s prefix : gostring) {struct prefix} : bool :=
  match prefix, s with
  | [], _ => true
  | _ :: _, [] => false
  | p :: prefix', c :: s' => if Ascii.eqb c p then HasPrefix s' prefix' else false
  end.

(** [strings.Index(s, substr)]: the index of the first instance of
    [substr] in [s]; Go's [-1] is [None]. *)
Fixpoint Index (s substr : gostring) : option nat :=
  if HasPrefix s substr then Some 0
  else match s with
       | [] => None
       | _ :: s' => S <$> Index s' substr
       end.

(** [strings.Contains(s, substr)] is [Index(s, substr) >= 0]. *)
Definition Contains (s substr : gostring) : bool :=
  match Index s substr with Some _ => true | None => false end.

(** [strings.Count(s, substr)] for a non-empty [substr]: the number of
    non-overlapping instances. *)
Fixpoint countFrom (fuel : nat) (s substr : gostring) : nat :=
  match fuel with
  | 0 => 0
  | S fuel' =>
      match Index s substr with
      | None => 0
      | Some m => S (countFrom fuel' (drop (m + length substr) s) substr)
      end
  end.
Definition Count (s substr : gostring) : nat := countFrom (length s) s substr.

(** The loop of [strings.genSplit]: cut at the first [n] instances of
    [sep]; the remainder is the last element. *)
Fixpoint splitLoop (n : nat) (s sep : gostring) : list gostring :=
  match n with
  | 0 => [s]
  | S n' =>
      match Index s sep with
      | None => [s]
      | Some m => take m s :: splitLoop n' (drop (m + length sep) s) sep
      end
  end.

(** [strings.genSplit(s, sep, 0, n)].  [n = 0] gives nil, [n < 0] means
    all substrings, and [n] is capped by [len(s) + 1].  The program only
    splits on the one-byte separators ["\n"], [":"] and ["("]; Go's
    special case of the empty separator (one element per UTF-8
    sequence) is outside the model and yields nil here. *)
Definition genSplit (s sep : gostring) (n : Z) : list gostring :=
  if (n =? 0)%Z then []
  else match sep with
       | [] => []
       | _ :: _ =>
           let n := if (n <? 0)%Z then (Z.of_nat (Count s sep) + 1)%Z else n in
           let n := if (Z.of_nat (length s) + 1 <? n)%Z
                    then (Z.of_nat (length s) + 1)%Z else n in
           splitLoop (Z.to_nat (n - 1)) s sep
       end.

(** [strings.SplitN(s, sep, n)] and [strings.Split(s, sep)]. *)
Definition SplitN (s sep : gostring) (n : Z) : list gostring := genSplit s sep n.
Definition Split (s sep : gostring) : list gostring := genSplit s sep (-1).

(** [strings.Join(elems, sep)]. *)
Fixpoint Join (elems : list gostring) (sep : gostring) : gostring :=
  match elems with
  | [] => []
  | [e] => e
  | e :: elems' => e ++ sep ++ Join elems' sep
  end.

(** [strings.Trim(s, cutset)] for a cutset of ASCII bytes (the program's
    cutset is the two quote characters): Go then trims byte by byte,
    first on the right, then on the left. *)
Fixpoint trimLeftASCII (s cutset : gostring) : gostring :=
  match s with
  | [] => []
  | c :: s' => if bool_decide (c ∈ cutset) then trimLeftASCII s' cutset else s
  end.
Definition trimRightASCII (s cutset : gostring) : gostring :=
  reverse (trimLeftASCII (reverse s) cutset).
Definition Trim (s cutset : gostring) : gostring :=
  trimLeftASCII (trimRightASCII s cutset) cutset.

(** *** White space

    [strings.TrimSpace] removes leading and trailing white space "as
    defined by Unicode": the code points of [unicode.White_Space]. *)
Definition White_Space : list Z :=
  [0x0009; 0x000A; 0x000B; 0x000C; 0x000D; 0x0020; 0x0085; 0x00A0; 0x1680;
   0x2000; 0x2001; 0x2002; 0x2003; 0x2004; 0x2005; 0x2006; 0x2007; 0x2008;
   0x2009; 0x200A; 0x2028; 0x2029; 0x202F; 0x205F; 0x3000]%Z.

(** [utf8.AppendRune] on code points of the basic multilingual plane
    (one to three bytes); all of [White_Space] lies there. *)
Definition EncodeRune (r : Z) : gostring :=
  if (r <=? 0x7F)%Z then [byte_of_Z r]
  else if (r <=? 0x7FF)%Z then
    [byte_of_Z (Z.lor 0xC0 (Z.shiftr r 6));
     byte_of_Z (Z.lor 0x80 (Z.land r 0x3F))]
  else
    [byte_of_Z (Z.lor 0xE0 (Z.shiftr r 12));
     byte_of_Z (Z.lor 0x80 (Z.land (Z.shiftr r 6) 0x3F));
     byte_of_Z (Z.lor 0x80 (Z.land r 0x3F))].

(** Go decodes a string rune by rune; bytes that are not a well-formed
    UTF-8 sequence decode, one byte at a time, to U+FFFD, which is not
    white space.  UTF-8 encodings are unique and prefix-free, so the
    rune decoded at the front of [s] (by [utf8.DecodeRuneInString]) is
    white space exactly when [s] starts with the encoding of a
    [White_Space] code point, and the rune decoded at the back (by
    [utf8.DecodeLastRuneInString]) is white space exactly when [s] ends
    with one. *)
Definition spaceEncodings : list gostring := EncodeRune <$> White_Space.

(** The width of the first encoding in [encs] that [s] starts with. *)
Fixpoint leadingWidth (encs : list gostring) (s : gostring) : option nat :=
  match encs with
  | [] => None
  | e :: encs' => if HasPrefix s e then Some (length e) else leadingWidth encs' s
  end.

(** [strings.TrimLeftFunc(s, unicode.IsSpace)]: drop runes from the
    front while they are white space. *)
Fixpoint stripLeading (encs : list gostring) (fuel : nat) (s : gostring) : gostring :=
  match fuel with
  | 0 => s
  | S fuel' =>
      match leadingWidth encs s with
      | Some w => stripLeading encs fuel' (drop w s)
      | None => s
      end
  end.

Definition trimLeftSpace (s : gostring) : gostring :=
  stripLeading spaceEncodings (length s) s.

(** [strings.TrimRightFunc(s, unicode.IsSpace)]: the same from the back. *)
Definition trimRightSpace (s : gostring) : gostring :=
  reverse (stripLeading (reverse <$> spaceEncodings) (length s) (reverse s)).

(** [strings.TrimSpace(s)], which is [TrimFunc(s, unicode.IsSpace)]
    (Go's fast path for ASCII gives the same result): trim on the left,
    then on the right. *)
Definition TrimSpace (s : gostring) : gostring :=
  trimRightSpace (trimLeftSpace s).

(** [strings.ContainsAny(s, chars)] for a set [chars] of ASCII
    characters: some byte of [s] is in the set. *)
Definition ContainsAny (s chars : gostring) : bool :=
  existsb (λ c, bool_decide (c ∈ chars)) s.

End strings.

(** ** Package [fmt] *)
Module fmt.

(** The operands the program passes to the formatting functions. *)
Inductive operand :=
| String_ (s : gostring)
| Int_ (n : Z).

Definition typeName (a : operand) : gostring :=
  match a with String_ _ => str "string" | Int_ _ => str "int" end.

(** The default rendering (what [%v] prints). *)
Definition render (a : operand) : gostring :=
  match a with String_ s => s | Int_ n => str (pretty n) end.

(** One verb applied to one operand: [%s] on a string, [%d] on an
    integer, [%v] on both; a verb that does not fit its operand is
    reported the way Go reports it, [%!verb(type=value)]. *)
Definition formatOperand (verb : ascii) (a : operand) : gostring :=
  match a with
  | String_ s =>
      if bool_decide (verb ∈ ["s"; "v"]) then s
      else str "%!" ++ verb :: str "(string=" ++ s ++ str ")"
  | Int_ n =>
      if bool_decide (verb ∈ ["d"; "v"]) then str (pretty n)
      else str "%!" ++ verb :: str "(int=" ++ str (pretty n) ++ str ")"
  end.

Definition extra (a : list operand) : gostring :=
  match a with
  | [] => []
  | _ :: _ =>
      str "%!(EXTRA "
        ++ strings.Join ((λ o, typeName o ++ str "=" ++ render o) <$> a) (str ", ")
        ++ str ")"
  end.

(** [fmt.Sprintf(format, a...)] for the verbs above and [%%], without
    flags, width or precision (the program uses [%s] and [%d] only). *)
Fixpoint Sprintf (format : gostring) (a : list operand) : gostring :=
  match format with
  | [] => extra a
  | c :: format' =>
      if Ascii.eqb c "%" then
        match format' with
        | [] => str "%!(NOVERB)" ++ extra a
        | verb :: format'' =>
            if Ascii.eqb verb "%" then "%" :: Sprintf format'' a
            else match a with
                 | [] => str "%!" ++ verb :: str "(MISSING)" ++ Sprintf format'' []
                 | o :: a' => formatOperand verb o ++ Sprintf format'' a'
                 end
        end
      else c :: Sprintf format' a
  end.

(** A Go [error] value; [Error] is its method. *)
Inductive error := errorString (s : gostring).
Definition Error (e : error) : gostring := match e with errorString s => s end.

(** [fmt.Errorf(format, a...)] (no [%w] in the program). *)
Definition Errorf (format : gostring) (a : list operand) : error :=
  errorString (Sprintf format a).

(** [fmt.Printf(format, a...)]: the bytes written to standard output. *)
Definition Printf (format : gostring) (a : list operand) : gostring :=
  Sprintf format a.

End fmt.

(** ** Package [regexp]

    The program compiles five constant patterns.  They are given as
    syntax trees; the fragment has literals, [^] (beginning of text), one
    capture group, and the operators [*], [+], [?] applied to a single
    character class.  Go matches rune by rune; every class of the program
    is either a set of ASCII characters or the complement of one ASCII
    character, and an ASCII byte is always a rune of its own, so matching
    byte by byte finds the same match and the same group. *)
Module regexp.

Inductive class :=
| Char (b : ascii)            (* a literal character *)
| Space                       (* \s, which is [\t\n\f\r ] *)
| Range (lo hi : ascii)       (* [lo-hi] *)
| Not (b : ascii).            (* [^b] *)

Definition classMatches (c : class) (b : ascii) : bool :=
  match c with
  | Char x => Ascii.eqb b x
  | Space => bool_decide (b ∈ ["009"; "010"; "012"; "013"; " "])
  | Range lo hi =>
      (nat_of_ascii lo <=? nat_of_ascii b) && (nat_of_ascii b <=? nat_of_ascii hi)
  | Not x => negb (Ascii.eqb b x)
  end.

Inductive Regexp :=
| Literal (s : gostring)
| One (c : class)
| Star (c : class)
| Plus (c : class)
| Quest (c : class)
| BeginText
| Capture (re : Regexp)
| Concat (re1 re2 : Regexp).

(** The remainders that [c*] can leave, the longest repetition first
    (the operators are greedy). *)
Fixpoint greedy (c : class) (s : gostring) : list gostring :=
  match s with
  | [] => [[]]
  | b :: s' => if classMatches c b then greedy c s' ++ [s] else [s]
  end.

(** All the ways [re] matches a prefix of [s], in the order a
    backtracking matcher tries them (Go's leftmost-first semantics):
    each is the unread remainder with the text of the capture group.
    [total] is the length of the whole text, so that [^] can tell the
    beginning. *)
Fixpoint run (re : Regexp) (total : nat) (s : gostring) (cap : option gostring)
  : list (gostring * option gostring) :=
  match re with
  | Literal l => if strings.HasPrefix s l then [(drop (length l) s, cap)] else []
  | One c =>
      match s with
      | b :: s' => if classMatches c b then [(s', cap)] else []
      | [] => []
      end
  | Star c => (λ s', (s', cap)) <$> greedy c s
  | Plus c =>
      match s with
      | b :: s' => if classMatches c b then (λ s'', (s'', cap)) <$> greedy c s' else []
      | [] => []
      end
  | Quest c =>
      match s with
      | b :: s' => if classMatches c b then [(s', cap); (s, cap)] else [(s, cap)]
      | [] => [(s, cap)]
      end
  | BeginText => if length s =? total then [(s, cap)] else []
  | Capture re' =>
      (λ r, (r.1, Some (take (length s - length r.1) s))) <$> run re' total s cap
  | Concat re1 re2 =>
      r ← run re1 total s cap; run re2 total r.1 r.2
  end.

(** The leftmost match: try every starting position in turn. *)
Fixpoint search (re : Regexp) (total : nat) (s : gostring)
  : option (gostring * option gostring) :=
  match run re total s None with
  | r :: _ => Some (take (length s - length r.1) s, r.2)
  | [] =>
      match s with
      | [] => None
      | _ :: s' => search re total s'
      end
  end.

(** [re.FindStringSubmatch(s)] for a pattern with one group: nil when
    there is no match, else the match and the text of the group. *)
Definition FindStringSubmatch (re : Regexp) (s : gostring) : list gostring :=
  match search re (length s) s with
  | None => []
  | Some (whole, cap) => [whole; default [] cap]
  end.

End regexp.

(** ** Package [commitrules] *)
Module commitrules.
Import strings fmt regexp.

(** CommitRule defines the structure for commit message rules *)
Record CommitRule := {
  Type_ : gostring;
  Description : gostring;
  Examples : list gostring;
}.

(** CommitRules holds all available commit types and their rules *)
Definition CommitRules : gmap gostring CommitRule :=
  list_to_map [
    (str "feat", {|
       Type_ := str "feat";
       Description := str "A new feature";
       Examples := [str "feat(core): add user authentication service";
                    str "feat(ui): implement dark mode toggle"] |});
    (str "fix", {|
       Type_ := str "fix";
       Description := str "A bug fix";
       Examples := [str "fix(api): resolve null pointer in validation";
                    str "fix(ui): correct button alignment"] |});
    (str "docs", {|
       Type_ := str "docs";
       Description := str "Documentation only changes";
       Examples := [str "docs(readme): update installation instructions";
                    str "docs(api): add endpoint documentation"] |});
    (str "style", {|
       Type_ := str "style";
       Description := str "Changes that do not affect the meaning of the code (white-space, formatting, missing semi-colons, etc)";
       Examples := [str "style(utils): format code with prettier";
                    str "style(ui): fix indentation"] |});
    (str "refactor", {|
       Type_ := str "refactor";
       Description := str "A code change that neither fixes a bug nor adds a feature";
       Examples := [str "refactor(utils): extract validation logic";
                    str "refactor(api): simplify request handling"] |});
    (str "test", {|
       Type_ := str "test";
       Description := str "Adding missing tests or correcting existing tests";
       Examples := [str "test(core): add unit tests for user service";
                    str "test(api): fix integration tests"] |});
    (str "chore", {|
       Type_ := str "chore";
       Description := str "Other changes that don't modify src or test files";
       Examples := [str "chore(deps): update dependencies";
                    str "chore(build): update build configuration"] |})
  ].

(** Go does not specify the order in which [range] visits the keys of a
    map, and the order may differ from one loop to the next.  The order
    taken by one execution of the loop is a parameter of the model; it
    lists every key of the map once. *)
Definition rangeOrder {V} (m : gmap gostring V) (order : list gostring) : Prop :=
  order ≡ₚ (map_to_list m).*1.

(** GetCommitTypes returns all available commit types *)
Definition GetCommitTypes (order : list gostring) : list gostring :=
  foldl (λ types commitType, types ++ [commitType]) [] order.

(** The format string of [GetPrompt] (a raw string literal in the
    source). *)
Definition promptFormat : gostring :=
  str "You are a commit message generator. Your ONLY task is to output a single conventional commit message.

FORMAT: type(scope): description
RULES:
- Maximum 50 characters total
- Types: %s
- Extract scope from file paths (api, ui, core, scripts, pkg, etc.)
- Use lowercase, present tense, imperative mood
- No periods, quotes, or extra text

EXAMPLE OUTPUTS:
feat(core): add user authentication
fix(api): resolve null pointer exception
docs(readme): update installation guide
style(ui): format button components
refactor(db): simplify query logic
test(auth): add unit tests for login
chore(deps): update go modules

CRITICAL: Respond with ONLY the commit message. No explanations, no quotes, no "
      ++ DQUOTE :: str "Here is the commit message:"
      ++ DQUOTE :: str ", no extra text whatsoever.

Git diff to analyze:
%s".

(** GetPrompt generates the commit message prompt based on analysis input *)
Definition GetPrompt (order : list gostring) (analysisInput : gostring) : gostring :=
  let commitTypesList := Join (GetCommitTypes order) (str ", ") in
  let prompt := Sprintf promptFormat [String_ commitTypesList; String_ analysisInput] in
  prompt.

(** The cutset of the two calls of [strings.Trim]: both quote characters. *)
Definition quotes : gostring := [DQUOTE; SQUOTE].

(** A sequence of sub-expressions. *)
Fixpoint Sequence (res : list Regexp) : Regexp :=
  match res with
  | [] => Literal []
  | [re] => re
  | re :: res' => Concat re (Sequence res')
  end.

(** The wrapper patterns [phrase\s*Q?([^Q]+)Q?], where Q is the double
    quote. *)
Definition afterPhrase (phrase : gostring) : Regexp :=
  Sequence [Literal phrase; Star Space; Quest (Char DQUOTE);
            Capture (Plus (Not DQUOTE)); Quest (Char DQUOTE)].

(** Look for patterns that might contain a commit message.  The source
    compiles each pattern with [regexp.MustCompile] inside the loop; the
    five patterns are well-formed constants and are given compiled. *)
Definition patterns : list Regexp := [
  afterPhrase (str "commit message:");   (* commit message:\s*Q?([^Q]+)Q? *)
  afterPhrase (str "should be:");        (* should be:\s*Q?([^Q]+)Q? *)
  afterPhrase (str "message is:");       (* message is:\s*Q?([^Q]+)Q? *)
  afterPhrase (str "message:");          (* message:\s*Q?([^Q]+)Q? *)
  (* ^\s*([a-z]+\([^)]+\):\s*[^.]+)   Direct match at start *)
  Sequence [BeginText; Star Space;
            Capture (Sequence [Plus (Range "a" "z"); Literal (str "(");
                               Plus (Not ")"); Literal (str "):");
                               Star Space; Plus (Not ".")])]
].

(** The loop over [patterns]: the first pattern that matches with a
    candidate containing a colon and shorter than 72 bytes returns. *)
Fixpoint tryPatterns (patterns : list Regexp) (firstLine : gostring) : option gostring :=
  match patterns with
  | [] => None
  | re :: patterns' =>
      match FindStringSubmatch re firstLine with
      | _ :: match1 :: _ =>
          let candidate := TrimSpace match1 in
          if Contains candidate (str ":") && (length candidate <? 72)
          then Some (Trim candidate quotes)
          else tryPatterns patterns' firstLine
      | _ => tryPatterns patterns' firstLine
      end
  end.

(** CleanCommitMessage cleans and formats the generated commit message.
    The result is [None] if the index expression [lines[0]] is out of
    range (a run-time panic in Go). *)
Definition CleanCommitMessage (message : gostring) : option gostring :=
  (* Remove quotes and extra whitespace *)
  let message := Trim message quotes in
  let message := TrimSpace message in
  (* Split into lines and take the first one *)
  let lines := Split message [LF] in
  line0 ← lines !! 0;
  let firstLine := TrimSpace line0 in
  (* the statements after the first [if], reached when it does not return *)
  let afterCheck :=
    match tryPatterns patterns firstLine with
    | Some extracted => Some extracted
    | None =>
        (* If no good pattern found, but first line looks like a commit message, use it *)
        if Contains firstLine (str ":") && (length firstLine <? 72)
        then Some firstLine
        (* Last resort: return the cleaned first line *)
        else Some firstLine
    end in
  (* Try to extract a proper commit message from descriptive text *)
  if Contains firstLine (str ":") then
    match SplitN firstLine (str ":") 2 with
    | [part0; part1] =>
        let typePart := TrimSpace part0 in
        let descPart := TrimSpace part1 in
        if (0 <? length typePart) && (0 <? length descPart) && (length firstLine <? 72)
        then Some firstLine
        else afterCheck
    | _ => afterCheck
    end
  else afterCheck.

(** The result of a call of [ValidateCommitMessage]: what it wrote to
    standard output, and the error it returned ([None] is Go's [nil]). *)
Record result := { stdout : gostring; err : option error }.

(** ValidateCommitMessage validates if a commit message follows the conventional format *)
Definition ValidateCommitMessage (order : list gostring) (message : gostring) : result :=
  let message := TrimSpace message in
  (* Check basic format type(scope): description *)
  match SplitN message (str ":") 2 with
  | [part0; _] =>
      (* Check if type is valid *)
      let typeAndScope := TrimSpace part0 in
      match SplitN typeAndScope (str "(") 2 with
      | [] =>
          {| stdout := []; err := Some (Errorf (str "commit message must have a type") []) |}
      | commitType :: _ =>
          match CommitRules !! commitType with
          | None =>
              {| stdout := [];
                 err := Some (Errorf (str "invalid commit type: %s. Valid types: %s")
                                [String_ commitType;
                                 String_ (Join (GetCommitTypes order) (str ", "))]) |}
          | Some _ =>
              (* Check length *)
              if 72 <? length message then
                {| stdout := [];
                   err := Some (Errorf (str "commit message is too long: %d characters (maximum: 72)")
                                  [Int_ (Z.of_nat (length message))]) |}
              else if 50 <? length message then
                {| stdout := Printf (str "Warning: Commit message is %d characters (recommended: <50)" ++ [LF])
                               [Int_ (Z.of_nat (length message))];
                   err := None |}
              else {| stdout := []; err := None |}
          end
      end
  | _ =>
      {| stdout := [];
         err := Some (Errorf (str "commit message must follow format: type(scope): description") []) |}
  end.

End commitrules.

(** ** Package [main]: the pure helpers of [main.go] *)
Module main.
Import strings fmt.

(** The first cleaner of the program, [cleanCommitMessage], which
    [commitrules.CleanCommitMessage] replaced. *)
Definition cleanCommitMessage (message : gostring) : gostring :=
  (* Remove quotes and extra whitespace *)
  let message := Trim message [DQUOTE; SQUOTE] in
  let message := TrimSpace message in
  (* Remove any remaining explanatory text *)
  let lines := Split message [LF] in
  match lines with
  | line0 :: _ :: _ => TrimSpace line0      (* len(lines) > 1 *)
  | _ => message
  end.

(** The characters that [validateFilePath] refuses:
    ampersand, bar, semicolon, angle brackets, parentheses, dollar,
    backquote and both quotes. *)
Definition dangerous : gostring := str "&|;<>()$`" ++ [DQUOTE; SQUOTE].

(** validateFilePath validates that a file path is safe to use. *)
Definition validateFilePath (path : gostring) : bool :=
  (* Check for path traversal attempts *)
  if Contains path (str "..") then false
  (* Check for dangerous characters *)
  else if ContainsAny path dangerous then false
  (* Check for empty path *)
  else if bool_decide (path = []) then false
  else true.

(** *** The program and the outside world

    The rest of [main.go] (its last revision in the file, the one whose
    default provider is [claudex2]) runs commands, looks at files, prints
    and reads the terminal.  Every such step is a [call]; the world
    answers with a [reply], and may take into account everything that
    happened before.  A computation threads the list of the events so
    far; its result is [None] when the program panics. *)

(** An [exec.Cmd] as [exec.Command] builds it and the program fills it
    in; [Env] holds the entries appended to the inherited environment. *)
Record Cmd := {
  Path : gostring;
  Args : list gostring;
  Env : list gostring;
  Stdin : gostring;
}.

(** [exec.Command(name, arg...)] *)
Definition Command (name : gostring) (arg : list gostring) : Cmd :=
  {| Path := name; Args := name :: arg; Env := []; Stdin := [] |}.

Inductive call :=
| CmdOutput (cmd : Cmd)           (* cmd.Output() *)
| CmdCombinedOutput (cmd : Cmd)   (* cmd.CombinedOutput() *)
| CmdRun (cmd : Cmd)              (* cmd.Run() *)
| Stat (name : gostring)          (* os.Stat(name) *)
| ReadFile (name : gostring)      (* os.ReadFile(name) *)
| Scanln                          (* fmt.Scanln(&response) *)
| Print (text : gostring).        (* fmt.Print, fmt.Printf, fmt.Println *)

(** What a call gives back: the bytes (the output of a command, the
    content of a file, the word read) and the error, if any. *)
Record reply := { data : gostring; failure : option error }.

Definition event : Type := call * reply.

(** Error definitions. *)
Definition ErrNotGitRepo : error := errorString (str "not in a git repository").
Definition ErrNoChangesFound : error := errorString (str "no changes found to analyze").
Definition ErrNoStagedFiles : error := errorString (str "no staged files found").
Definition ErrNoUntrackedFiles : error := errorString (str "no untracked files found").
Definition ErrUnsupportedProvider : error := errorString (str "unsupported provider").

(** [fmt.Errorf] with the verb [%w]: the text of the new error is
    formatted as with [%v], that is with the text of the wrapped error.
    (The program never unwraps an error, so the text is all of it.) *)
Fixpoint wrapVerb (format : gostring) : gostring :=
  match format with
  | [] => []
  | c :: format' =>
      if Ascii.eqb c "%" then
        match format' with
        | [] => [c]
        | verb :: format'' =>
            c :: (if Ascii.eqb verb "w" then "v" else verb) :: wrapVerb format''
        end
      else c :: wrapVerb format'
  end.

Definition ErrorfWrap (format : gostring) (a : list (operand + error)) : error :=
  Errorf (wrapVerb format)
    ((λ x, match x with inl o => o | inr e => String_ (Error e) end) <$> a).

Section World.

(** The world. *)
Variable env : list event → call → reply.

(** [strings.ToLower], applied to the answer read from the terminal. *)
Variable ToLower : gostring → gostring.

(** The three environment entries that the source appends for each of
    the two provider aliases (an endpoint, a key and a model name). *)
Variable aliasEnv : gostring → list gostring.

Definition M (A : Type) : Type := list event → option A * list event.

Definition ret {A} (a : A) : M A := λ h, (Some a, h).

Definition bind {A B} (m : M A) (f : A → M B) : M B :=
  λ h, match m h with
       | (Some a, h') => f a h'
       | (None, h') => (None, h')
       end.

Definition panic {A} : M A := λ h, (None, h).

Definition perform (c : call) : M reply :=
  λ h, let r := env h c in (Some r, h ++ [(c, r)]).

#[global] Instance M_ret : MRet M := @ret.
#[global] Instance M_bind : MBind M := λ A B f m, bind m f.

Definition isGitRepo : M bool :=
  r ← perform (CmdCombinedOutput (Command (str "git") [str "rev-parse"; str "--git-dir"]));
  ret (bool_decide (failure r = None)).

(** The loop over the files that all three analyses run: a file whose
    path is refused is skipped; for a file that [os.Stat] finds, a
    heading is written, and then at most 2000 bytes of what [fetch]
    returns (the diff of the file, or its content).  [analysisInput] is
    the [strings.Builder]. *)
Fixpoint excerpts (heading : gostring) (fetch : gostring → call)
    (files : list gostring) (analysisInput : gostring) : M gostring :=
  match files with
  | [] => ret analysisInput
  | file :: files' =>
      if negb (validateFilePath file) then excerpts heading fetch files' analysisInput
      else
        st ← perform (Stat file);
        match failure st with
        | Some _ => excerpts heading fetch files' analysisInput
        | None =>
            let analysisInput := analysisInput ++ Sprintf heading [String_ file] in
            r ← perform (fetch file);
            let output := data r in
            let output := if 2000 <? length output then take 2000 output else output in
            excerpts heading fetch files' (analysisInput ++ output)
        end
  end.

Definition analyzeStagedChanges : M (gostring * option error) :=
  (* Get staged files *)
  r ← perform (CmdOutput (Command (str "git") [str "diff"; str "--cached"; str "--name-only"]));
  match failure r with
  | Some err => ret ([], Some err)
  | None =>
      let stagedFiles := TrimSpace (data r) in
      if bool_decide (stagedFiles = []) then ret ([], Some ErrNoStagedFiles)
      else
        let analysisInput := str "=== STAGED CHANGES ANALYSIS ===" ++ [LF] in
        let files := Split stagedFiles [LF] in
        let analysisInput :=
          analysisInput ++ Sprintf (str "Files changed: %d" ++ [LF])
                             [Int_ (Z.of_nat (length files))] in
        let analysisInput :=
          analysisInput ++ Sprintf (str "Files: %s" ++ [LF; LF])
                             [String_ (Join files (str " "))] in
        (* Get diff stats *)
        r ← perform (CmdOutput (Command (str "git") [str "diff"; str "--cached"; str "--stat"]));
        let analysisInput := analysisInput ++ str "=== DIFF ===" ++ [LF] in
        let analysisInput := analysisInput ++ data r in
        let analysisInput := analysisInput ++ LF :: str "=== DETAILED CHANGES ===" ++ [LF] in
        (* Get detailed diff for each file *)
        analysisInput ←
          excerpts (LF :: str "--- %s ---" ++ [LF])
            (λ file, CmdOutput (Command (str "git")
                                  [str "diff"; str "--cached"; str "--unified=3"; str "--"; file]))
            files analysisInput;
        ret (analysisInput, None)
  end.

Definition analyzeAllChanges : M (gostring * option error) :=
  (* Get modified files *)
  modified ← perform (CmdOutput (Command (str "git") [str "diff"; str "--name-only"]));
  match failure modified with
  | Some err => ret ([], Some err)
  | None =>
      (* Get untracked files *)
      untracked ← perform (CmdOutput (Command (str "git")
                             [str "ls-files"; str "--others"; str "--exclude-standard"]));
      match failure untracked with
      | Some err => ret ([], Some err)
      | None =>
          let modifiedFiles := TrimSpace (data modified) in
          let untrackedFiles := TrimSpace (data untracked) in
          if bool_decide (modifiedFiles = []) && bool_decide (untrackedFiles = [])
          then ret ([], Some ErrNoChangesFound)
          else
            let analysisInput := str "=== ALL CHANGES ANALYSIS ===" ++ [LF] in
            analysisInput ←
              (if bool_decide (modifiedFiles ≠ []) then
                 let files := Split modifiedFiles [LF] in
                 let analysisInput :=
                   analysisInput ++ Sprintf (str "Modified files: %d" ++ [LF])
                                      [Int_ (Z.of_nat (length files))] in
                 let analysisInput := analysisInput ++ str "=== MODIFIED FILES ===" ++ [LF] in
                 let analysisInput :=
                   analysisInput ++ Sprintf (str "%s" ++ [LF; LF])
                                      [String_ (Join files (str " "))] in
                 let analysisInput := analysisInput ++ str "=== MODIFICATIONS ===" ++ [LF] in
                 excerpts (LF :: str "--- %s ---" ++ [LF])
                   (λ file, CmdOutput (Command (str "git")
                                         [str "diff"; str "--unified=3"; file]))
                   files analysisInput
               else ret analysisInput);
            analysisInput ←
              (if bool_decide (untrackedFiles ≠ []) then
                 let files := Split untrackedFiles [LF] in
                 let analysisInput :=
                   analysisInput ++ LF :: str "=== UNTRACKED FILES ===" ++ [LF] in
                 let analysisInput :=
                   analysisInput ++ Sprintf (str "%s" ++ [LF; LF])
                                      [String_ (Join files (str " "))] in
                 let analysisInput := analysisInput ++ str "=== FILE CONTENTS ===" ++ [LF] in
                 excerpts (LF :: str "--- %s (new) ---" ++ [LF]) ReadFile files analysisInput
               else ret analysisInput);
            ret (analysisInput, None)
      end
  end.

Definition analyzeUntrackedFiles : M (gostring * option error) :=
  r ← perform (CmdOutput (Command (str "git")
                 [str "ls-files"; str "--others"; str "--exclude-standard"]));
  match failure r with
  | Some err => ret ([], Some err)
  | None =>
      let untrackedFiles := TrimSpace (data r) in
      if bool_decide (untrackedFiles = []) then ret ([], Some ErrNoUntrackedFiles)
      else
        let analysisInput := str "=== UNTRACKED FILES ANALYSIS ===" ++ [LF] in
        let files := Split untrackedFiles [LF] in
        let analysisInput :=
          analysisInput ++ Sprintf (str "Files: %d" ++ [LF])
                             [Int_ (Z.of_nat (length files))] in
        let analysisInput :=
          analysisInput ++ Sprintf (str "%s" ++ [LF; LF])
                             [String_ (Join files (str " "))] in
        let analysisInput := analysisInput ++ str "=== FILE CONTENTS ===" ++ [LF] in
        analysisInput ←
          excerpts (LF :: str "--- %s ---" ++ [LF]) ReadFile files analysisInput;
        ret (analysisInput, None)
  end.

(** [order] is the order in which [commitrules.GetPrompt] sees the
    commit types. *)
Definition callAIAPI (order : list gostring) (analysisInput provider : gostring)
    : M (gostring * option error) :=
  let prompt := commitrules.GetPrompt order analysisInput in
  (* Handle special providers that are typically defined as aliases *)
  let cmd :=
    if bool_decide (provider = str "claudex2") then
      {| Path := str "claude"; Args := [str "claude"];
         Env := aliasEnv (str "claudex2"); Stdin := [] |}
    else if bool_decide (provider = str "claudex3") then
      {| Path := str "claude"; Args := [str "claude"];
         Env := aliasEnv (str "claudex3"); Stdin := [] |}
    else
      (* For other providers, try direct execution first *)
      Command provider [] in
  let cmd := {| Path := Path cmd; Args := Args cmd; Env := Env cmd; Stdin := prompt |} in
  r ← perform (CmdOutput cmd);
  match failure r with
  | Some err =>
      ret ([], Some (ErrorfWrap (str "failed to call %s API: %w")
                       [inl (String_ provider); inr err]))
  | None => ret (TrimSpace (data r), None)
  end.

(** [cmd.Run()] on the nil command is a nil-pointer panic. *)
Definition executeCommit (mode commitMessage : gostring) : M (option error) :=
  let commit := Command (str "git") [str "commit"; str "-m"; commitMessage] in
  let run (cmd : option Cmd) : M (option error) :=
    match cmd with
    | None => panic
    | Some cmd => r ← perform (CmdRun cmd); ret (failure r)
    end in
  if bool_decide (mode = str "staged") then run (Some commit)
  else if bool_decide (mode = str "all") || bool_decide (mode = str "untracked") then
    (* First stage all changes *)
    r ← perform (CmdRun (Command (str "git") [str "add"; str "."]));
    match failure r with
    | Some err => ret (Some err)
    | None => run (Some commit)
    end
  else run None.

(** The action that [generateCommitMessage(mode)] returns;
    [providerFlag] is [c.String("provider")]; [promptOrder] and
    [typesOrder] are the orders of the commit types in the two loops
    over the registry, the one of [GetPrompt] and the one of
    [ValidateCommitMessage]. *)
Definition generateCommitMessage (promptOrder typesOrder : list gostring)
    (mode providerFlag : gostring) : M (option error) :=
  (* Check if we're in a git repository *)
  repo ← isGitRepo;
  if negb repo then ret (Some ErrNotGitRepo)
  else
    (* the statements after the switch *)
    let afterAnalysis (analysis : gostring * option error) : M (option error) :=
      match analysis.2 with
      | Some err => ret (Some err)
      | None =>
          let analysisInput := analysis.1 in
          if bool_decide (analysisInput = []) then ret (Some ErrNoChangesFound)
          else
            let provider :=
              if bool_decide (providerFlag = []) then str "claudex2" else providerFlag in
            generated ← callAIAPI promptOrder analysisInput provider;
            match generated.2 with
            | Some err =>
                ret (Some (ErrorfWrap (str "failed to generate commit message: %w") [inr err]))
            | None =>
                match commitrules.CleanCommitMessage generated.1 with
                | None => panic
                | Some commitMessage =>
                    (* Validate commit message format *)
                    let validation :=
                      commitrules.ValidateCommitMessage typesOrder commitMessage in
                    (if bool_decide (commitrules.stdout validation = []) then ret tt
                     else perform (Print (commitrules.stdout validation));; ret tt);;
                    (match commitrules.err validation with
                     | Some err =>
                         perform (Print (Sprintf (str "Warning: %s" ++ [LF])
                                           [String_ (Error err)]));; ret tt
                     | None => ret tt
                     end);;
                    perform (Print (Sprintf
                                      (str "Generated commit message:"
                                         ++ LF :: DQUOTE :: str "%s" ++ DQUOTE :: [LF; LF])
                                      [String_ commitMessage]));;
                    perform (Print (str "Do you want to use this commit message? [y/N] "));;
                    answer ← perform Scanln;
                    let response :=
                      match failure answer with
                      | Some _ => []     (* Handle scan error (e.g., EOF) *)
                      | None => data answer
                      end in
                    if bool_decide (ToLower response = str "y")
                       || bool_decide (ToLower response = str "yes")
                    then
                      committed ← executeCommit mode commitMessage;
                      match committed with
                      | Some err => ret (Some err)
                      | None =>
                          perform (Print (str "Committed successfully!" ++ [LF]));;
                          ret None
                      end
                    else
                      perform (Print (str "Commit cancelled." ++ [LF]));;
                      ret None
                end
            end
      end in
    (* the switch on the mode: the analysis to run, or the default case *)
    let analyze : option (M (gostring * option error)) :=
      if bool_decide (mode = str "staged") then Some analyzeStagedChanges
      else if bool_decide (mode = str "all") then Some analyzeAllChanges
      else if bool_decide (mode = str "untracked") then Some analyzeUntrackedFiles
      else None in
    match analyze with
    | None =>
        ret (Some (ErrorfWrap (str "%w: unknown mode: %s")
                     [inr ErrNoChangesFound; inl (String_ mode)]))
    | Some analyze => analysis ← analyze; afterAnalysis analysis
    end.

End World.

End main.

(** ** Vocabulary of the statements *)

(** [sub] occurs in [s] as a contiguous substring. *)
Definition infix (sub s : gostring) : Prop := ∃ l r, s = l ++ sub ++ r.

(** The text before the first [c] of [s] (all of [s] if there is none),
    and the text after it. *)
Fixpoint before (c : ascii) (s : gostring) : gostring :=
  match s with
  | [] => []
  | b :: s' => if Ascii.eqb b c then [] else b :: before c s'
  end.

Fixpoint after (c : ascii) (s : gostring) : gostring :=
  match s with
  | [] => []
  | b :: s' => if Ascii.eqb b c then s' else after c s'
  end.

(** [s] is a sequence of white-space runes. *)
Definition whitespaceOnly (s : gostring) : Prop :=
  ∃ runes, Forall (λ e, e ∈ strings.spaceEncodings) runes ∧ s = concat runes.

(** The first line that [CleanCommitMessage] works on: the input with
    its outer quotes and white space trimmed, cut at the first line
    break, and trimmed again. *)
Definition firstLineOf (message : gostring) : gostring :=
  strings.TrimSpace (before LF (strings.TrimSpace (strings.Trim message commitrules.quotes))).

(** A line that looks like a commit message already: it has a colon,
    the segments before and after the first colon are not empty once
    trimmed, and it is shorter than 72 bytes. *)
Definition wellFormed (line : gostring) : Prop :=
  ":" ∈ line ∧
  strings.TrimSpace (before ":" line) ≠ [] ∧
  strings.TrimSpace (after ":" line) ≠ [] ∧
  length line < 72.

(** The type token of a message: the text before the first parenthesis
    of the (trimmed) part before the first colon. *)
Definition typeToken (message : gostring) : gostring :=
  before "(" (strings.TrimSpace (before ":" (strings.TrimSpace message))).

#[global] Instance wellFormed_dec line : Decision (wellFormed line).
Proof. unfold wellFormed. apply _. Defined.

(** The outcomes of the validator: the texts of its three errors and of
    its warning. *)
Definition MalformedFormat : fmt.error :=
  fmt.errorString (str "commit message must follow format: type(scope): description").

Definition InvalidType (commitType : gostring) (types : list gostring) : fmt.error :=
  fmt.errorString (str "invalid commit type: " ++ commitType
                     ++ str ". Valid types: " ++ strings.Join types (str ", ")).

Definition TooLong (n : nat) : fmt.error :=
  fmt.errorString (str "commit message is too long: " ++ str (pretty (Z.of_nat n))
                     ++ str " characters (maximum: 72)").

Definition LengthWarning (n : nat) : gostring :=
  str "Warning: Commit message is " ++ str (pretty (Z.of_nat n))
    ++ str " characters (recommended: <50)" ++ [LF].

(** The commands with which the analyses of [main.go] list the changed
    files, and the steps an analysis may take: a listing, or, on a path
    that [validateFilePath] accepts, [os.Stat], [os.ReadFile] or the
    diff of that one file. *)
Definition listings : list main.Cmd :=
  [main.Command (str "git") [str "diff"; str "--cached"; str "--name-only"];
   main.Command (str "git") [str "diff"; str "--cached"; str "--stat"];
   main.Command (str "git") [str "diff"; str "--name-only"];
   main.Command (str "git") [str "ls-files"; str "--others"; str "--exclude-standard"]].

Definition analysisStep (c : main.call) : Prop :=
  (∃ cmd, cmd ∈ listings ∧ c = main.CmdOutput cmd)
  ∨ ∃ file,
      main.validateFilePath file = true
      ∧ c ∈ [main.Stat file; main.ReadFile file;
             main.CmdOutput (main.Command (str "git")
                               [str "diff"; str "--cached"; str "--unified=3"; str "--"; file]);
             main.CmdOutput (main.Command (str "git")
                               [str "diff"; str "--unified=3"; file])].

(** The calls of each analysis: its listing commands, and for a file
    whose path [validateFilePath] accepts, [os.Stat] and the fetch of
    its diff or of its content.  [analyzeStagedChanges] passes the name
    of the file to git after [--]; [analyzeAllChanges] passes it with
    no [--] before it. *)
Definition stagedStep (c : main.call) : Prop :=
  c = main.CmdOutput (main.Command (str "git") [str "diff"; str "--cached"; str "--name-only"])
  ∨ c = main.CmdOutput (main.Command (str "git") [str "diff"; str "--cached"; str "--stat"])
  ∨ ∃ file,
      main.validateFilePath file = true
      ∧ (c = main.Stat file
         ∨ c = main.CmdOutput
                 (main.Command (str "git")
                    [str "diff"; str "--cached"; str "--unified=3"; str "--"; file])).

Definition allStep (c : main.call) : Prop :=
  c = main.CmdOutput (main.Command (str "git") [str "diff"; str "--name-only"])
  ∨ c = main.CmdOutput
          (main.Command (str "git") [str "ls-files"; str "--others"; str "--exclude-standard"])
  ∨ ∃ file,
      main.validateFilePath file = true
      ∧ (c = main.Stat file
         ∨ c = main.CmdOutput (main.Command (str "git") [str "diff"; str "--unified=3"; file])
         ∨ c = main.ReadFile file).

Definition untrackedStep (c : main.call) : Prop :=
  c = main.CmdOutput
        (main.Command (str "git") [str "ls-files"; str "--others"; str "--exclude-standard"])
  ∨ ∃ file,
      main.validateFilePath file = true ∧ (c = main.Stat file ∨ c = main.ReadFile file).



(** The answer read from the terminal confirms the commit. *)
Definition confirmed (ToLower : gostring → gostring) (answer : main.reply) : Prop :=
  let response := match main.failure answer with Some _ => [] | None => main.data answer end in
  ToLower response = str "y" ∨ ToLower response = str "yes".

(** The text that shows the generated message to the user. *)
Definition shownMessage (commitMessage : gostring) : gostring :=
  str "Generated commit message:" ++ LF :: DQUOTE :: commitMessage ++ DQUOTE :: [LF; LF].

(** A computation that does not panic, with what it returns and the
    events it adds. *)
Definition sat `(m : main.M A) (T : A → list main.event → Prop) : Prop :=
  ∀ h, ∃ a new, m h = (Some a, h ++ new) ∧ T a new.

(** What an analysis does and returns: it takes analysis steps only;
    the text it returns begins with a heading, and is empty when it
    fails. *)
Definition analysisResult (result : gostring * option fmt.error)
    (new : list main.event) : Prop :=
  Forall (λ ev, analysisStep ev.1) new
  ∧ (result.2 = None → str "=== " `prefix_of` result.1)
  ∧ (result.2 ≠ None → result.1 = []).

(** The calls of [generateCommitMessage] besides those of the analyses. *)
Definition revParse : main.call :=
  main.CmdCombinedOutput (main.Command (str "git") [str "rev-parse"; str "--git-dir"]).

Definition gitAdd : main.call :=
  main.CmdRun (main.Command (str "git") [str "add"; str "."]).

Definition gitCommit (commitMessage : gostring) : main.call :=
  main.CmdRun (main.Command (str "git") [str "commit"; str "-m"; commitMessage]).

Definition question : gostring := str "Do you want to use this commit message? [y/N] ".

Definition modes : list gostring := [str "staged"; str "all"; str "untracked"].

Section Outcomes.

Variable ToLower : gostring → gostring.
Variable aliasEnv : gostring → list gostring.
Variables promptOrder typesOrder : list gostring.
Variables mode providerFlag : gostring.

(** The provider: the flag, or [claudex2] when the flag is empty; and
    the command that calls it on an analysis text. *)
Definition providerOf : gostring :=
  if bool_decide (providerFlag = []) then str "claudex2" else providerFlag.

Definition providerCmd (provider analysisInput : gostring) : main.Cmd :=
  let alias := bool_decide (provider ∈ [str "claudex2"; str "claudex3"]) in
  let program := if alias then str "claude" else provider in
  {| main.Path := program;
     main.Args := [program];
     main.Env := if alias then aliasEnv provider else [];
     main.Stdin := commitrules.GetPrompt promptOrder analysisInput |}.

(** The calls before the answer of the user. *)
Definition quiet (c : main.call) : Prop :=
  c = revParse ∨ analysisStep c
  ∨ (∃ analysisInput, c = main.CmdOutput (providerCmd providerOf analysisInput))
  ∨ ∃ text, c = main.Print text.

(** What is printed about a message before it is shown: the warning of
    the validator about its length, or the error of the validator. *)
Definition notes (validation : commitrules.result) (new : list main.event) : Prop :=
  ∃ warning errors,
    new = warning ++ errors
    ∧ (if bool_decide (commitrules.stdout validation = []) then warning = []
       else ∃ p, warning = [(main.Print (commitrules.stdout validation), p)])
    ∧ match commitrules.err validation with
      | None => errors = []
      | Some err =>
          ∃ p, errors = [(main.Print (str "Warning: " ++ fmt.Error err ++ [LF]), p)]
      end.

(** The run up to the answer of the user: the check of the repository,
    the analysis, the call of the provider, the notes, the message and
    the question. *)
Inductive offered (commitMessage : gostring) (answer : main.reply) : list main.event → Prop :=
| Offered r0 steps analysisInput r ns p1 p2 :
    main.failure r0 = None →
    mode ∈ modes →
    Forall (λ ev, analysisStep ev.1) steps →
    str "=== " `prefix_of` analysisInput →
    main.failure r = None →
    commitrules.CleanCommitMessage (strings.TrimSpace (main.data r)) = Some commitMessage →
    notes (commitrules.ValidateCommitMessage typesOrder commitMessage) ns →
    offered commitMessage answer
      ((revParse, r0) :: steps
         ++ (main.CmdOutput (providerCmd providerOf analysisInput), r) :: ns
         ++ [(main.Print (shownMessage commitMessage), p1);
             (main.Print question, p2);
             (main.Scanln, answer)]).

(** What [executeCommit] runs in one of the three modes, and returns. *)
Inductive commits (commitMessage : gostring) : option fmt.error → list main.event → Prop :=
| CommitStaged rc :
    mode = str "staged" →
    commits commitMessage (main.failure rc) [(gitCommit commitMessage, rc)]
| AddFailed ra err :
    mode ∈ [str "all"; str "untracked"] →
    main.failure ra = Some err →
    commits commitMessage (Some err) [(gitAdd, ra)]
| CommitAll ra rc :
    mode ∈ [str "all"; str "untracked"] →
    main.failure ra = None →
    commits commitMessage (main.failure rc) [(gitAdd, ra); (gitCommit commitMessage, rc)].

(** The runs of [generateCommitMessage]: what it returns, and the
    events it adds. *)
Inductive outcome : option fmt.error → list main.event → Prop :=
| NotARepository r0 :
    main.failure r0 ≠ None →
    outcome (Some main.ErrNotGitRepo) [(revParse, r0)]
| UnknownMode r0 :
    main.failure r0 = None →
    mode ∉ modes →
    outcome (Some (fmt.errorString (str "no changes found to analyze: unknown mode: " ++ mode)))
      [(revParse, r0)]
| AnalysisFailed r0 steps err :
    main.failure r0 = None →
    mode ∈ modes →
    Forall (λ ev, analysisStep ev.1) steps →
    outcome (Some err) ((revParse, r0) :: steps)
| ProviderFailed r0 steps analysisInput r err :
    main.failure r0 = None →
    mode ∈ modes →
    Forall (λ ev, analysisStep ev.1) steps →
    str "=== " `prefix_of` analysisInput →
    main.failure r = Some err →
    outcome
      (Some (fmt.errorString (str "failed to generate commit message: failed to call "
                                ++ providerOf ++ str " API: " ++ fmt.Error err)))
      ((revParse, r0) :: steps
         ++ [(main.CmdOutput (providerCmd providerOf analysisInput), r)])
| Cancelled commitMessage answer asked p :
    offered commitMessage answer asked →
    ¬ confirmed ToLower answer →
    outcome None (asked ++ [(main.Print (str "Commit cancelled." ++ [LF]), p)])
| CommitFailed commitMessage answer asked runs err :
    offered commitMessage answer asked →
    confirmed ToLower answer →
    commits commitMessage (Some err) runs →
    outcome (Some err) (asked ++ runs)
| Committed commitMessage answer asked runs p :
    offered commitMessage answer asked →
    confirmed ToLower answer →
    commits commitMessage None runs →
    outcome None (asked ++ runs ++ [(main.Print (str "Committed successfully!" ++ [LF]), p)]).

End Outcomes.

(** The names of the files of a listing, as the analyses split it, all
    occur in a text. *)
Definition names (listing : main.reply) (text : gostring) : Prop :=
  ∀ file, file ∈ strings.Split (strings.TrimSpace (main.data listing)) [LF] → infix file text.

(** A world in which every command prints [listing], every file is
    found, and nothing fails. *)
Definition listingWorld (listing : gostring) (h : list main.event) (c : main.call)
    : main.reply :=
  {| main.data := listing; main.failure := None |}.

(** A world for the examples: every git command prints [a.go], the
    provider prints [generated], the user types [typed], and nothing
    fails. *)
Definition sampleWorld (generated typed : gostring) (h : list main.event) (c : main.call)
    : main.reply :=
  match c with
  | main.CmdOutput cmd =>
      if bool_decide (main.Path cmd = str "git")
      then {| main.data := str "a.go" ++ [LF]; main.failure := None |}
      else {| main.data := generated; main.failure := None |}
  | main.Scanln => {| main.data := typed; main.failure := None |}
  | _ => {| main.data := []; main.failure := None |}
  end.

(** * Facts about the library models *)

Section StringFacts.
Import strings.

Lemma HasPrefix_true s p : HasPrefix s p = true ↔ p `prefix_of` s.
Proof.
  revert s; induction p as [|x p IH]; intros s; simpl.
  - split; [intros _; apply prefix_nil | done].
  - destruct s as [|c s].
    + split; [done | intros [k Hk]; discriminate].
    + destruct (Ascii.eqb_spec c x) as [->|Hne].
      * rewrite IH. split; [apply prefix_cons | apply prefix_cons_inv_2].
      * split; [done | intros H; apply prefix_cons_inv_1 in H; congruence].
Qed.

Lemma before_after c s : c ∈ s → s = before c s ++ c :: after c s.
Proof.
  induction s as [|b s IH]; [by intros ?%elem_of_nil|].
  intros Hin; simpl. destruct (Ascii.eqb_spec b c) as [->|Hne]; [done|].
  simpl. f_equal. apply IH. by apply elem_of_cons in Hin as [?|?].
Qed.

Lemma before_notin c s : c ∉ before c s.
Proof.
  induction s as [|b s IH]; simpl; [apply not_elem_of_nil|].
  destruct (Ascii.eqb_spec b c) as [->|Hne]; [apply not_elem_of_nil|].
  intros [?|?]%elem_of_cons; congruence.
Qed.

Lemma before_id c s : c ∉ s → before c s = s.
Proof.
  induction s as [|b s IH]; [done|]. intros Hn; simpl.
  destruct (Ascii.eqb_spec b c) as [->|Hne].
  - exfalso; apply Hn; left.
  - f_equal; apply IH. intros ?; apply Hn; by right.
Qed.

Lemma before_app c pre post : c ∉ pre → before c (pre ++ c :: post) = pre.
Proof.
  induction pre as [|b pre IH]; intros Hn; simpl.
  - by rewrite Ascii.eqb_refl.
  - destruct (Ascii.eqb_spec b c) as [->|Hne].
    + exfalso; apply Hn; left.
    + f_equal; apply IH. intros ?; apply Hn; by right.
Qed.

Lemma after_app c pre post : c ∉ pre → after c (pre ++ c :: post) = post.
Proof.
  induction pre as [|b pre IH]; intros Hn; simpl.
  - by rewrite Ascii.eqb_refl.
  - destruct (Ascii.eqb_spec b c) as [->|Hne].
    + exfalso; apply Hn; left.
    + apply IH. intros ?; apply Hn; by right.
Qed.

Lemma before_prefix c s : before c s `prefix_of` s.
Proof.
  destruct (decide (c ∈ s)) as [Hin|Hn].
  - exists (c :: after c s). by apply before_after.
  - by rewrite before_id.
Qed.

(** [Index] with a one-byte needle finds the first occurrence. *)
Lemma Index_byte_in c s : c ∈ s → Index s [c] = Some (length (before c s)).
Proof.
  induction s as [|b s IH]; [by intros ?%elem_of_nil|].
  intros Hin. simpl. destruct (Ascii.eqb_spec b c) as [->|Hne]; [done|].
  rewrite IH; [done|]. by apply elem_of_cons in Hin as [?|?].
Qed.

Lemma Index_byte_notin c s : c ∉ s → Index s [c] = None.
Proof.
  induction s as [|b s IH]; [done|]. intros Hn. simpl.
  destruct (Ascii.eqb_spec b c) as [->|Hne].
  - exfalso; apply Hn; left.
  - rewrite IH; [done|]. intros ?; apply Hn; by right.
Qed.

Lemma Contains_byte c s : Contains s [c] = bool_decide (c ∈ s).
Proof.
  unfold Contains. case_bool_decide as H.
  - by rewrite Index_byte_in.
  - by rewrite Index_byte_notin.
Qed.

Lemma prefix_drop (sub s : gostring) : sub `prefix_of` s → s = sub ++ drop (length sub) s.
Proof. intros [k ->]. by rewrite drop_app_length. Qed.

(** [Index] returns a position where [substr] occurs, and [Contains] is
    the substring relation. *)
Lemma Index_Some s substr n :
  Index s substr = Some n → s = take n s ++ substr ++ drop (n + length substr) s.
Proof.
  revert n; induction s as [|b s IH]; intros n; cbn [Index].
  - destruct (HasPrefix [] substr) eqn:Hp; [|done].
    intros [= <-]. apply HasPrefix_true in Hp. exact (prefix_drop _ _ Hp).
  - destruct (HasPrefix (b :: s) substr) eqn:Hp.
    + intros [= <-]. apply HasPrefix_true in Hp. exact (prefix_drop _ _ Hp).
    + destruct (Index s substr) as [m|]; [|done].
      intros [= <-]. cbn [take drop Nat.add app]. f_equal. by apply IH.
Qed.

Lemma Index_prefix s substr : substr `prefix_of` s → Index s substr = Some 0.
Proof. intros H%HasPrefix_true. destruct s; cbn [Index]; by rewrite H. Qed.

Lemma Contains_infix s substr : Contains s substr = true ↔ infix substr s.
Proof.
  unfold Contains. split.
  - destruct (Index s substr) as [n|] eqn:Hn; [|done]. intros _.
    eexists _, _. by apply Index_Some.
  - intros (l & r & ->). induction l as [|b l IH]; cbn [app].
    + rewrite Index_prefix; [done | by eexists].
    + cbn [Index]. destruct (HasPrefix _ _); [done|].
      by destruct (Index (l ++ substr ++ r) substr).
Qed.

Lemma take_before c s : take (length (before c s)) s = before c s.
Proof.
  destruct (before_prefix c s) as [k Hk]. rewrite Hk at 2.
  by rewrite take_app_length.
Qed.

Lemma drop_before c s : c ∈ s → drop (length (before c s) + 1) s = after c s.
Proof.
  intros Hin.
  transitivity (drop (length (before c s) + 1) (before c s ++ c :: after c s)).
  - by rewrite <- before_after.
  - by rewrite drop_app_add.
Qed.

End StringFacts.

Section SplitFacts.
Import strings.

Lemma splitLoop_head c n s :
  ∃ rest, splitLoop n s [c] = (if n is 0 then s else before c s) :: rest.
Proof.
  destruct n as [|n]; simpl; [by eexists|].
  destruct (decide (c ∈ s)) as [Hin|Hn].
  - rewrite Index_byte_in, take_before by done. by eexists.
  - rewrite Index_byte_notin, before_id by done. by eexists.
Qed.

Lemma splitLoop_notin c n s : c ∉ s → splitLoop n s [c] = [s].
Proof. intros Hn. destruct n; simpl; [done|]. by rewrite Index_byte_notin. Qed.

Lemma splitLoop_nonempty n s sep : splitLoop n s sep ≠ [].
Proof. destruct n; simpl; [done|]. by destruct (Index s sep). Qed.

(** [genSplit] returns nil only for [n = 0] (or the empty separator). *)
Lemma genSplit_nonempty s c sep n : n ≠ 0%Z → genSplit s (c :: sep) n ≠ [].
Proof.
  intros Hn. unfold genSplit.
  destruct (Z.eqb_spec n 0) as [?|_]; [done|]. apply splitLoop_nonempty.
Qed.

Lemma SplitN_2_in c s : c ∈ s → SplitN s [c] 2 = [before c s; after c s].
Proof.
  intros Hin. unfold SplitN, genSplit; simpl.
  destruct s as [|b s]; [by apply elem_of_nil in Hin|].
  destruct (Z.ltb_spec (Z.of_nat (length (b :: s)) + 1) 2) as [Hlt|_].
  { simpl length in Hlt. lia. }
  change (Z.to_nat (2 - 1)) with 1. cbn [splitLoop].
  by rewrite Index_byte_in, take_before, drop_before.
Qed.

Lemma SplitN_2_notin c s : c ∉ s → SplitN s [c] 2 = [s].
Proof. intros Hn. unfold SplitN, genSplit; simpl. by apply splitLoop_notin. Qed.

(** The first element of [Split(s, sep)] is the text before the first
    separator. *)
Lemma Split_head c s : Split s [c] !! 0 = Some (before c s).
Proof.
  unfold Split, genSplit; simpl.
  destruct (decide (c ∈ s)) as [Hin|Hn].
  - set (n := Z.to_nat _).
    assert (n ≠ 0) as Hn0.
    { subst n. destruct s as [|b s]; [by apply elem_of_nil in Hin|].
      unfold Count. cbn [length countFrom]. rewrite Index_byte_in by done.
      match goal with |- context [if ?b then _ else _] => destruct b end; lia. }
    destruct (splitLoop_head c n s) as [rest ->]. by destruct n.
  - rewrite splitLoop_notin, before_id by done. done.
Qed.

End SplitFacts.

Section TrimFacts.
Import strings.

Lemma trimLeftASCII_suffix s cutset : trimLeftASCII s cutset `suffix_of` s.
Proof.
  induction s as [|c s IH]; simpl; [done|].
  case_bool_decide; [by apply suffix_cons_r | done].
Qed.

Lemma trimLeftASCII_id s cutset :
  (∀ c, head s = Some c → c ∉ cutset) → trimLeftASCII s cutset = s.
Proof.
  destruct s as [|c s]; simpl; [done|]. intros H.
  case_bool_decide as Hc; [|done]. by destruct (H c).
Qed.

Lemma trimRightASCII_prefix s cutset : trimRightASCII s cutset `prefix_of` s.
Proof.
  unfold trimRightASCII.
  destruct (trimLeftASCII_suffix (reverse s) cutset) as [k Hk].
  exists (reverse k). apply (inj reverse).
  by rewrite reverse_app, !reverse_involutive.
Qed.

Lemma trimRightASCII_id s cutset :
  (∀ c, last s = Some c → c ∉ cutset) → trimRightASCII s cutset = s.
Proof.
  intros H. unfold trimRightASCII.
  rewrite trimLeftASCII_id; [apply reverse_involutive|].
  intros c Hc. apply H. by rewrite <- head_reverse.
Qed.

Lemma Trim_infix s cutset : infix (Trim s cutset) s.
Proof.
  unfold Trim.
  destruct (trimLeftASCII_suffix (trimRightASCII s cutset) cutset) as [l Hl].
  destruct (trimRightASCII_prefix s cutset) as [r Hr].
  exists l, r. by rewrite app_assoc, <- Hl.
Qed.

(** A string that neither begins nor ends with a byte of the cutset
    is left alone. *)
Lemma Trim_id s cutset :
  (∀ c, head s = Some c → c ∉ cutset) →
  (∀ c, last s = Some c → c ∉ cutset) →
  Trim s cutset = s.
Proof.
  intros Hh Hl. unfold Trim.
  rewrite trimRightASCII_id by done. by apply trimLeftASCII_id.
Qed.

End TrimFacts.

Section SpaceFacts.
Import strings.

Section Strip.
Variable encs : list gostring.

Lemma leadingWidth_Some s w :
  leadingWidth encs s = Some w → ∃ e, e ∈ encs ∧ e `prefix_of` s ∧ w = length e.
Proof.
  induction encs as [|e es IH]; simpl; [done|].
  destruct (HasPrefix s e) eqn:He.
  - intros [= <-]. exists e. split; [left|]. split; [by apply HasPrefix_true|done].
  - intros (e' & ? & ?)%IH. exists e'. split; [by right|done].
Qed.

Lemma leadingWidth_None s :
  leadingWidth encs s = None ↔ ∀ e, e ∈ encs → ¬ e `prefix_of` s.
Proof.
  induction encs as [|e es IH]; simpl.
  - split; [by intros _ e ?%elem_of_nil | done].
  - destruct (HasPrefix s e) eqn:He.
    + split; [done|]. intros H. destruct (H e); [left | by apply HasPrefix_true].
    + rewrite IH. split.
      * intros H e' [->|?]%elem_of_cons; [|by apply H].
        rewrite <- HasPrefix_true. congruence.
      * intros H e' ?. apply H. by right.
Qed.

Lemma leadingWidth_prefix p s :
  p `prefix_of` s → leadingWidth encs s = None → leadingWidth encs p = None.
Proof.
  rewrite !leadingWidth_None. intros Hp H e He Hpre.
  apply (H e He). by etrans.
Qed.

Lemma stripLeading_suffix n s : stripLeading encs n s `suffix_of` s.
Proof.
  revert s; induction n as [|n IH]; intros s; simpl; [done|].
  destruct (leadingWidth encs s) as [w|]; [|done].
  etrans; [apply IH | apply suffix_drop].
Qed.

Lemma stripLeading_id n s :
  leadingWidth encs s = None → stripLeading encs n s = s.
Proof. intros H. destruct n; simpl; [done|]. by rewrite H. Qed.

Hypothesis encs_nonempty : ∀ e, e ∈ encs → e ≠ [].

Lemma leadingWidth_nil : leadingWidth encs [] = None.
Proof.
  apply leadingWidth_None. intros e He ->%prefix_nil_inv. by apply (encs_nonempty []).
Qed.

(** With fuel for every byte, stripping ends at a string that starts
    with none of the encodings. *)
Lemma stripLeading_done n s :
  length s ≤ n → leadingWidth encs (stripLeading encs n s) = None.
Proof.
  revert s; induction n as [|n IH]; intros s Hlen; simpl.
  - destruct s; [apply leadingWidth_nil | simpl in Hlen; lia].
  - destruct (leadingWidth encs s) as [w|] eqn:Hw; [|done].
    apply IH. apply leadingWidth_Some in Hw as (e & He & _ & ->).
    rewrite length_drop.
    assert (length e ≠ 0); [|lia].
    intros ?%nil_length_inv. by apply (encs_nonempty e).
Qed.

End Strip.

Lemma spaceEncodings_nonempty e : e ∈ spaceEncodings → e ≠ [].
Proof.
  revert e. apply Forall_forall.
  apply (bool_decide_unpack _). by vm_compute.
Qed.

Lemma spaceEncodings_rev_nonempty e : e ∈ reverse <$> spaceEncodings → e ≠ [].
Proof.
  revert e. apply Forall_forall.
  apply (bool_decide_unpack _). by vm_compute.
Qed.

(** No encoding of a white-space rune is a proper prefix of another. *)
Lemma spaceEncodings_prefix_free e1 e2 :
  e1 ∈ spaceEncodings → e2 ∈ spaceEncodings → e1 `prefix_of` e2 → e1 = e2.
Proof.
  intros H1 H2.
  assert (Forall (λ a, Forall (λ b, a `prefix_of` b → a = b) spaceEncodings)
            spaceEncodings) as H.
  { apply (bool_decide_unpack _). by vm_compute. }
  rewrite Forall_forall in H. specialize (H e1 H1).
  rewrite Forall_forall in H. exact (H e2 H2).
Qed.

Lemma trimLeftSpace_suffix s : trimLeftSpace s `suffix_of` s.
Proof. apply stripLeading_suffix. Qed.

Lemma trimRightSpace_prefix s : trimRightSpace s `prefix_of` s.
Proof.
  unfold trimRightSpace.
  destruct (stripLeading_suffix (reverse <$> spaceEncodings) (length s) (reverse s))
    as [k Hk].
  exists (reverse k). apply (inj reverse).
  by rewrite reverse_app, !reverse_involutive.
Qed.

(** [TrimSpace] returns a slice of its argument. *)
Lemma TrimSpace_infix s : infix (TrimSpace s) s.
Proof.
  unfold TrimSpace.
  destruct (trimLeftSpace_suffix s) as [l Hl].
  destruct (trimRightSpace_prefix (trimLeftSpace s)) as [r Hr].
  exists l, r. by rewrite <- Hr.
Qed.

Lemma trimLeftSpace_fixed s :
  leadingWidth spaceEncodings s = None → trimLeftSpace s = s.
Proof. apply stripLeading_id. Qed.

Lemma trimRightSpace_fixed s :
  leadingWidth (reverse <$> spaceEncodings) (reverse s) = None → trimRightSpace s = s.
Proof.
  intros H. unfold trimRightSpace.
  rewrite stripLeading_id by done. apply reverse_involutive.
Qed.

(** Trimming what [TrimSpace] returned changes nothing. *)
Lemma TrimSpace_idemp s : TrimSpace (TrimSpace s) = TrimSpace s.
Proof.
  unfold TrimSpace at 2 3. set (t := trimLeftSpace s). set (u := trimRightSpace t).
  assert (leadingWidth spaceEncodings t = None) as Ht.
  { apply stripLeading_done; [apply spaceEncodings_nonempty | done]. }
  assert (leadingWidth spaceEncodings u = None) as Hu.
  { eapply leadingWidth_prefix; [apply trimRightSpace_prefix | done]. }
  assert (leadingWidth (reverse <$> spaceEncodings) (reverse u) = None) as Hr.
  { subst u. unfold trimRightSpace. rewrite reverse_involutive.
    apply stripLeading_done; [apply spaceEncodings_rev_nonempty|].
    by rewrite length_reverse. }
  unfold TrimSpace. rewrite (trimLeftSpace_fixed u Hu). by apply trimRightSpace_fixed.
Qed.

Lemma leadingWidth_encoding e rest :
  e ∈ spaceEncodings → leadingWidth spaceEncodings (e ++ rest) = Some (length e).
Proof.
  intros He. destruct (leadingWidth spaceEncodings (e ++ rest)) as [w|] eqn:Hw.
  - apply leadingWidth_Some in Hw as (e' & He' & Hpre & ->).
    destruct (prefix_weak_total e e' (e ++ rest)) as [H|H];
      [by eexists | done | ..].
    + by rewrite (spaceEncodings_prefix_free e e').
    + by rewrite (spaceEncodings_prefix_free e' e).
  - exfalso. rewrite leadingWidth_None in Hw. apply (Hw e He). by eexists.
Qed.

Lemma stripLeading_runes runes n :
  Forall (λ e, e ∈ spaceEncodings) runes →
  length (concat runes) ≤ n →
  stripLeading spaceEncodings n (concat runes) = [].
Proof.
  intros Hr. revert n. induction Hr as [|e rs He _ IH]; intros n Hn; cbn [concat] in *.
  - apply stripLeading_id, leadingWidth_nil, spaceEncodings_nonempty.
  - rewrite length_app in Hn.
    pose proof (spaceEncodings_nonempty e He) as Hne.
    destruct n as [|n].
    { destruct e; [done | simpl in Hn; lia]. }
    cbn [stripLeading]. rewrite leadingWidth_encoding, drop_app_length by done.
    apply IH. destruct e; [done | simpl in Hn; lia].
Qed.

(** White space only trims to the empty string. *)
Lemma TrimSpace_whitespaceOnly s : whitespaceOnly s → TrimSpace s = [].
Proof.
  intros (runes & Hr & ->). unfold TrimSpace, trimLeftSpace.
  by rewrite stripLeading_runes.
Qed.

Lemma whitespaceOnly_bytes s c :
  whitespaceOnly s → c ∈ s → c ≠ DQUOTE ∧ c ≠ SQUOTE ∧ c ≠ ":" ∧ c ≠ "(".
Proof.
  intros (runes & Hr & ->) Hc.
  apply list_elem_of_In, in_concat in Hc as (e & He & Hc).
  apply list_elem_of_In in He, Hc.
  rewrite Forall_forall in Hr. apply Hr in He.
  assert (Forall (Forall (λ b, b ≠ DQUOTE ∧ b ≠ SQUOTE ∧ b ≠ ":" ∧ b ≠ "("))
            spaceEncodings) as H.
  { apply (bool_decide_unpack _). by vm_compute. }
  rewrite Forall_forall in H. specialize (H e He).
  rewrite Forall_forall in H. exact (H c Hc).
Qed.

End SpaceFacts.

Section InfixFacts.

Lemma infix_refl (s : gostring) : infix s s.
Proof. exists [], []. by rewrite app_nil_r. Qed.

Lemma infix_trans (a b c : gostring) : infix a b → infix b c → infix a c.
Proof.
  intros (l1 & r1 & ->) (l2 & r2 & ->). exists (l2 ++ l1), (r1 ++ r2).
  by rewrite <- !app_assoc.
Qed.

Lemma infix_prefix (a b : gostring) : a `prefix_of` b → infix a b.
Proof. intros [k ->]. by exists [], k. Qed.

Lemma infix_suffix (a b : gostring) : a `suffix_of` b → infix a b.
Proof. intros [k ->]. exists k, []. by rewrite app_nil_r. Qed.

Lemma infix_nil (s : gostring) : infix [] s.
Proof. by exists [], s. Qed.

Lemma infix_elem_of (a b : gostring) c : infix a b → c ∈ a → c ∈ b.
Proof. intros (l & r & ->) ?. rewrite !elem_of_app. auto. Qed.

End InfixFacts.

Section RegexpFacts.
Import regexp.

Lemma greedy_suffix c s s' : s' ∈ greedy c s → s' `suffix_of` s.
Proof.
  revert s'; induction s as [|b s IH]; intros s'; simpl.
  - by intros ->%list_elem_of_singleton.
  - destruct (classMatches c b).
    + intros [H | ->%list_elem_of_singleton]%elem_of_app; [|done].
      by apply suffix_cons_r, IH.
    + by intros ->%list_elem_of_singleton.
Qed.

(** Whatever way [re] matches, it reads a prefix of the text, and the
    group it may capture is a piece of the text. *)
Lemma run_inv re total s cap r :
  r ∈ run re total s cap →
  r.1 `suffix_of` s ∧ (r.2 = cap ∨ ∃ x, r.2 = Some x ∧ infix x s).
Proof.
  revert s cap r; induction re as [l|c|c|c|c| |re IH|re1 IH1 re2 IH2];
    intros s cap r; cbn [run].
  - destruct (strings.HasPrefix s l); [|by intros ?%elem_of_nil].
    intros ->%list_elem_of_singleton. split; [apply suffix_drop | by left].
  - destruct s as [|b s]; [by intros ?%elem_of_nil|].
    destruct (classMatches c b); [|by intros ?%elem_of_nil].
    intros ->%list_elem_of_singleton. split; [by apply suffix_cons_r | by left].
  - intros (s' & -> & Hs')%list_elem_of_fmap.
    split; [by apply greedy_suffix in Hs' | by left].
  - destruct s as [|b s]; [by intros ?%elem_of_nil|].
    destruct (classMatches c b); [|by intros ?%elem_of_nil].
    intros (s' & -> & Hs')%list_elem_of_fmap.
    split; [by apply suffix_cons_r, (greedy_suffix c) | by left].
  - destruct s as [|b s].
    { intros ->%list_elem_of_singleton. by split; [|left]. }
    destruct (classMatches c b).
    + intros [->| ->%list_elem_of_singleton]%elem_of_cons;
        (split; [|by left]); [by apply suffix_cons_r | done].
    + intros ->%list_elem_of_singleton. by split; [|left].
  - destruct (length s =? total); [|by intros ?%elem_of_nil].
    intros ->%list_elem_of_singleton. by split; [|left].
  - intros (r' & -> & Hr')%list_elem_of_fmap.
    apply IH in Hr' as [Hsuf _]. split; [done|]. right.
    eexists; split; [done|]. apply infix_prefix, prefix_take.
  - intros (r1 & Hr & Hr1)%list_elem_of_bind.
    apply IH1 in Hr1 as [Hsuf1 Hcap1]. apply IH2 in Hr as [Hsuf2 Hcap2].
    split; [by etrans|].
    destruct Hcap2 as [->|(x & -> & Hx)]; [done|].
    right. exists x. split; [done|].
    eapply infix_trans; [done | by apply infix_suffix].
Qed.

Lemma search_capture re total s whole cap :
  search re total s = Some (whole, cap) → ∀ x, cap = Some x → infix x s.
Proof.
  induction s as [|b s IH]; cbn [search].
  - destruct (run re total [] None) as [|r rs] eqn:Hrun; [done|].
    intros [= _ <-] x Hx.
    destruct (run_inv re total [] None r) as [_ [H|(y & Hy & Hin)]];
      [rewrite Hrun; left | congruence | congruence].
  - destruct (run re total (b :: s) None) as [|r rs] eqn:Hrun.
    + intros H x Hx. eapply infix_trans; [by eapply IH|].
      by apply infix_suffix, suffix_cons_r.
    + intros [= _ <-] x Hx.
      destruct (run_inv re total (b :: s) None r) as [_ [H|(y & Hy & Hin)]];
        [rewrite Hrun; left | congruence | congruence].
Qed.

(** The text of the group reported by [FindStringSubmatch] is a
    substring of the text searched. *)
Lemma FindStringSubmatch_group re s whole match1 rest :
  FindStringSubmatch re s = whole :: match1 :: rest → infix match1 s.
Proof.
  unfold FindStringSubmatch.
  destruct (search re (length s) s) as [[w cap]|] eqn:Hs; [|done].
  intros [= _ <- _]. destruct cap as [x|]; simpl; [|apply infix_nil].
  by eapply search_capture.
Qed.

End RegexpFacts.

Section FmtFacts.
Import strings fmt.

(** The three formats of [ValidateCommitMessage] with operands. *)
Lemma Sprintf_invalid_type (commitType types : gostring) :
  Sprintf (str "invalid commit type: %s. Valid types: %s") [String_ commitType; String_ types]
  = str "invalid commit type: " ++ commitType ++ str ". Valid types: " ++ types.
Proof. rewrite <- (app_nil_r types) at 2. reflexivity. Qed.

Lemma Sprintf_too_long (n : Z) :
  Sprintf (str "commit message is too long: %d characters (maximum: 72)") [Int_ n]
  = str "commit message is too long: " ++ str (pretty n) ++ str " characters (maximum: 72)".
Proof. reflexivity. Qed.

Lemma Sprintf_warning (n : Z) :
  Sprintf (str "Warning: Commit message is %d characters (recommended: <50)" ++ [LF]) [Int_ n]
  = str "Warning: Commit message is " ++ str (pretty n)
      ++ str " characters (recommended: <50)" ++ [LF].
Proof. reflexivity. Qed.

Lemma Join_infix elems sep t : t ∈ elems → infix t (Join elems sep).
Proof.
  induction elems as [|e es IH]; [by intros ?%elem_of_nil|].
  intros [->|Hin]%elem_of_cons.
  - destruct es as [|e' es]; [apply infix_refl|].
    apply infix_prefix. by eexists.
  - destruct es as [|e' es]; [by apply elem_of_nil in Hin|].
    eapply infix_trans; [by apply IH|].
    change (Join (e :: e' :: es) sep) with (e ++ sep ++ Join (e' :: es) sep).
    apply infix_suffix. exists (e ++ sep). by rewrite <- app_assoc.
Qed.

Lemma Join_length elems sep :
  length (Join elems sep) + length sep * (if elems is [] then 0 else 1)
  = sum_list (length <$> elems) + length sep * length elems.
Proof.
  induction elems as [|e es IH]; simpl; [lia|].
  destruct es as [|e' es]; [simpl; lia|].
  change (Join (e :: e' :: es) sep) with (e ++ sep ++ Join (e' :: es) sep).
  rewrite !length_app. simpl in *. lia.
Qed.

(** The length of a joined list does not depend on the order. *)
Lemma Join_length_Permutation l1 l2 sep :
  l1 ≡ₚ l2 → length (Join l1 sep) = length (Join l2 sep).
Proof.
  intros Hp.
  pose proof (Join_length l1 sep) as H1. pose proof (Join_length l2 sep) as H2.
  assert (sum_list (length <$> l1) = sum_list (length <$> l2)) as Hs by by rewrite Hp.
  assert (length l1 = length l2) as Hl by by rewrite Hp.
  destruct l1, l2; simpl in *; try discriminate; lia.
Qed.

End FmtFacts.

(** * Facts about the package *)

Section CommitRulesFacts.
Import strings fmt regexp commitrules.

(** The loop of [GetCommitTypes] copies the keys in the order visited. *)
Lemma GetCommitTypes_order order : GetCommitTypes order = order.
Proof.
  unfold GetCommitTypes.
  enough (∀ acc, foldl (λ types commitType, types ++ [commitType]) acc order
                 = acc ++ order) as H by apply H.
  induction order as [|t ts IH]; intros acc; simpl.
  - by rewrite app_nil_r.
  - by rewrite IH, <- app_assoc.
Qed.

(** The registered commit types, as the specification lists them. *)
Lemma registered_iff t :
  is_Some (CommitRules !! t) ↔
  t ∈ [str "feat"; str "fix"; str "docs"; str "style"; str "refactor";
       str "test"; str "chore"].
Proof.
  unfold CommitRules. rewrite <- not_eq_None_Some, <- not_elem_of_list_to_map.
  split; [apply dec_stable | by intros ? ?].
Qed.

Lemma rangeOrder_elem_of order t :
  rangeOrder CommitRules order → (t ∈ order ↔ is_Some (CommitRules !! t)).
Proof.
  unfold rangeOrder. intros ->. rewrite list_elem_of_fmap. split.
  - intros ([k v] & -> & H%elem_of_map_to_list). by eexists.
  - intros [v Hv]. exists (t, v). split; [done|]. by apply elem_of_map_to_list.
Qed.

(** A candidate accepted by the pattern loop is a piece of the first
    line that contains a colon. *)
Lemma tryPatterns_Some ps line r :
  tryPatterns ps line = Some r →
  ∃ m, infix m line ∧ ":" ∈ TrimSpace m ∧ length (TrimSpace m) < 72 ∧
       r = Trim (TrimSpace m) quotes.
Proof.
  induction ps as [|re ps IH]; cbn [tryPatterns]; [done|].
  destruct (FindStringSubmatch re line) as [|whole [|match1 rest]] eqn:HF; [done..|].
  change (str ":") with [":"]. rewrite Contains_byte.
  destruct (bool_decide (":" ∈ TrimSpace match1) && (length (TrimSpace match1) <? 72))
    eqn:Hc; [|done].
  apply andb_prop in Hc as [Hcolon Hlen].
  intros [= <-]. exists match1.
  split; [by eapply FindStringSubmatch_group|].
  split; [by apply bool_decide_eq_true in Hcolon|].
  split; [by apply Nat.ltb_lt | done].
Qed.

(** Without a colon in the first line no pattern yields a candidate. *)
Lemma tryPatterns_no_colon ps line : ":" ∉ line → tryPatterns ps line = None.
Proof.
  intros Hn. destruct (tryPatterns ps line) as [r|] eqn:Hr; [|done].
  apply tryPatterns_Some in Hr as (m & Hm & Hc & _).
  destruct Hn. eapply infix_elem_of; [done|].
  eapply infix_elem_of; [apply TrimSpace_infix | done].
Qed.

(** [CleanCommitMessage] in terms of the first line. *)
Lemma CleanCommitMessage_cases message :
  CleanCommitMessage message =
    Some (if decide (wellFormed (firstLineOf message)) then firstLineOf message
          else default (firstLineOf message)
                 (tryPatterns patterns (firstLineOf message))).
Proof.
  unfold CleanCommitMessage. cbv zeta. rewrite Split_head. cbn [mbind option_bind].
  change (TrimSpace (before LF (TrimSpace (Trim message quotes))))
    with (firstLineOf message).
  set (line := firstLineOf message).
  assert (match tryPatterns patterns line with
          | Some extracted => Some extracted
          | None => if Contains line (str ":") && (length line <? 72)
                    then Some line else Some line
          end = Some (default line (tryPatterns patterns line))) as ->.
  { destruct (tryPatterns patterns line); simpl; [done|].
    by destruct (_ && _). }
  change (str ":") with [":"]. rewrite Contains_byte.
  destruct (decide (wellFormed line)) as [(Hc & Hb & Ha & Hl)|Hn].
  - rewrite bool_decide_eq_true_2, SplitN_2_in by done.
    assert (∀ x : gostring, x ≠ [] → (0 <? length x) = true) as Hpos.
    { intros [|??] ?; [done | by apply Nat.ltb_lt; simpl; lia]. }
    rewrite !Hpos by done. by apply Nat.ltb_lt in Hl as ->.
  - case_bool_decide as Hc; [|done].
    rewrite SplitN_2_in by done.
    destruct (_ && _) eqn:Hcond; [|done].
    destruct Hn. apply andb_prop in Hcond as [[H1 H2]%andb_prop H3].
    apply Nat.ltb_lt in H1, H2, H3.
    repeat split; [done|..|done]; intros E; rewrite E in *; simpl in *; lia.
Qed.

(** [ValidateCommitMessage] in terms of the trimmed message and its
    type token. *)
Lemma ValidateCommitMessage_cases order message :
  ValidateCommitMessage order message =
    let m := TrimSpace message in
    if decide (":" ∈ m) then
      match CommitRules !! typeToken message with
      | None =>
          {| stdout := [];
             err := Some (Errorf (str "invalid commit type: %s. Valid types: %s")
                            [String_ (typeToken message);
                             String_ (Join (GetCommitTypes order) (str ", "))]) |}
      | Some _ =>
          if 72 <? length m then
            {| stdout := [];
               err := Some (Errorf (str "commit message is too long: %d characters (maximum: 72)")
                              [Int_ (Z.of_nat (length m))]) |}
          else if 50 <? length m then
            {| stdout := Printf (str "Warning: Commit message is %d characters (recommended: <50)" ++ [LF])
                           [Int_ (Z.of_nat (length m))];
               err := None |}
          else {| stdout := []; err := None |}
      end
    else
      {| stdout := [];
         err := Some (Errorf (str "commit message must follow format: type(scope): description") []) |}.
Proof.
  unfold ValidateCommitMessage, typeToken. cbv zeta.
  set (m := TrimSpace message).
  change (str ":") with [":"]. change (str "(") with ["("].
  destruct (decide (":" ∈ m)) as [Hc|Hc].
  - rewrite SplitN_2_in by done.
    set (ts := TrimSpace (before ":" m)).
    destruct (decide ("(" ∈ ts)) as [Hp|Hp].
    + by rewrite SplitN_2_in.
    + by rewrite SplitN_2_notin, before_id.
  - by rewrite SplitN_2_notin.
Qed.

End CommitRulesFacts.

Section NormalizerFacts.
Import strings fmt regexp commitrules.

Lemma firstLineOf_no_LF message : LF ∉ firstLineOf message.
Proof.
  intros H. eapply (before_notin LF).
  eapply infix_elem_of; [apply TrimSpace_infix | exact H].
Qed.

(** A trimmed line without outer quotes is its own first line. *)
Lemma firstLineOf_fixed line :
  (∀ c, head line = Some c → c ∉ quotes) →
  (∀ c, last line = Some c → c ∉ quotes) →
  TrimSpace line = line → LF ∉ line →
  firstLineOf line = line.
Proof.
  intros Hh Hl Ht Hn. unfold firstLineOf.
  by rewrite Trim_id, Ht, before_id, Ht.
Qed.

Lemma firstLineOf_trimmed message : TrimSpace (firstLineOf message) = firstLineOf message.
Proof. apply TrimSpace_idemp. Qed.

(** The normalizer depends on its input through the first line only. *)
Lemma CleanCommitMessage_firstLineOf m1 m2 :
  firstLineOf m1 = firstLineOf m2 → CleanCommitMessage m1 = CleanCommitMessage m2.
Proof. intros H. by rewrite !CleanCommitMessage_cases, H. Qed.

Lemma CleanCommitMessage_wellFormed message :
  wellFormed (firstLineOf message) →
  CleanCommitMessage message = Some (firstLineOf message).
Proof. intros H. rewrite CleanCommitMessage_cases. by rewrite decide_True. Qed.

(** Every result is a piece of the first line. *)
Lemma CleanCommitMessage_infix message cleaned :
  CleanCommitMessage message = Some cleaned → infix cleaned (firstLineOf message).
Proof.
  rewrite CleanCommitMessage_cases. intros H. apply (inj Some) in H. subst cleaned.
  destruct (decide _); [apply infix_refl|].
  destruct (tryPatterns patterns (firstLineOf message)) as [r|] eqn:Hr;
    [change (infix r (firstLineOf message)) | apply infix_refl].
  apply tryPatterns_Some in Hr as (m & Hm & _ & _ & ->).
  eapply infix_trans; [apply Trim_infix|].
  eapply infix_trans; [apply TrimSpace_infix | done].
Qed.

End NormalizerFacts.

(** * The normalizer, [CleanCommitMessage] *)

Section Normalizer.
Import strings fmt regexp commitrules.

(** The table of the repository's own test of the normalizer
    ([TestCleanCommitMessage]). *)
Example test_simple_message :
  CleanCommitMessage (str "feat: add new feature") = Some (str "feat: add new feature").
Proof. by vm_compute. Qed.

Example test_message_with_quotes :
  CleanCommitMessage (DQUOTE :: str "feat: add new feature" ++ [DQUOTE])
  = Some (str "feat: add new feature").
Proof. by vm_compute. Qed.

Example test_message_with_extra_whitespace :
  CleanCommitMessage (str "  feat: add new feature  ") = Some (str "feat: add new feature").
Proof. by vm_compute. Qed.

Example test_message_with_single_quotes :
  CleanCommitMessage (str "'feat: add new feature'") = Some (str "feat: add new feature").
Proof. by vm_compute. Qed.

Example test_multiline_message :
  CleanCommitMessage (str "feat: add new feature" ++ [LF; LF] ++ str "This is the description")
  = Some (str "feat: add new feature").
Proof. by vm_compute. Qed.

Example test_trailing_spaces_and_newlines :
  CleanCommitMessage (str "fix: resolve bug   " ++ [LF; LF] ++ str "  ")
  = Some (str "fix: resolve bug").
Proof. by vm_compute. Qed.

Example test_descriptive_response :
  CleanCommitMessage
    (str "Based on the changes, the commit message should be: "
       ++ DQUOTE :: str "feat: add new feature" ++ [DQUOTE])
  = Some (str "feat: add new feature").
Proof. by vm_compute. Qed.

Example test_long_descriptive_response :
  CleanCommitMessage
    (str "Looking at the git diff, I can see this is a major refactoring. The commit message is: refactor(core): extract validation logic")
  = Some (str "refactor(core): extract validation logic").
Proof. by vm_compute. Qed.

(** C1.  The wrapped message [The commit message should be: Qfix: resolve bugQ]
    (Q the double quote) is not recovered: the line has a colon with text
    on both sides and is 47 bytes long, so the well-formedness check
    returns the whole line (less its closing quote) before the
    extraction patterns are tried.  The pattern loop alone does find
    [fix: resolve bug] in that line. *)
Theorem CleanCommitMessage_wrapped_short_line :
  let input := str "The commit message should be: "
                 ++ DQUOTE :: str "fix: resolve bug" ++ [DQUOTE] in
  CleanCommitMessage input
    = Some (str "The commit message should be: " ++ DQUOTE :: str "fix: resolve bug")
  ∧ CleanCommitMessage input ≠ Some (str "fix: resolve bug")
  ∧ length (firstLineOf input) = 47
  ∧ tryPatterns patterns (firstLineOf input) = Some (str "fix: resolve bug").
Proof. by vm_compute. Qed.

(** The examples that the comments of the source give for the four
    wrapper patterns come back whole, too (less their closing quote). *)
Example wrapper_examples_of_the_source :
  CleanCommitMessage (str "commit message: 'feat: add feature'")
    = Some (str "commit message: 'feat: add feature")
  ∧ CleanCommitMessage (str "should be: 'fix: resolve bug'")
    = Some (str "should be: 'fix: resolve bug")
  ∧ CleanCommitMessage (str "message is: 'docs: update readme'")
    = Some (str "message is: 'docs: update readme")
  ∧ CleanCommitMessage (str "message: 'docs: update readme'")
    = Some (str "message: 'docs: update readme").
Proof. by vm_compute. Qed.

(** C7.  If the first line (after the quotes and the white space are
    trimmed) has a colon, the trimmed segments before and after the
    first colon are not empty, and the line is shorter than 72 bytes,
    the normalizer returns that line; [feat: add x] followed by a
    second line is an instance. *)
Theorem CleanCommitMessage_first_line :
  (∀ message line pre post,
     line = TrimSpace (before LF (TrimSpace (Trim message quotes))) →
     line = pre ++ ":" :: post → ":" ∉ pre →
     TrimSpace pre ≠ [] → TrimSpace post ≠ [] → length line < 72 →
     CleanCommitMessage message = Some line)
  ∧ CleanCommitMessage (str "feat: add x" ++ LF :: str "extra body text")
    = Some (str "feat: add x").
Proof.
  split; [|by vm_compute].
  intros message line pre post Hline Hsplit Hpre Hb Ha Hlen.
  change (line = firstLineOf message) in Hline. rewrite Hline.
  apply CleanCommitMessage_wellFormed. rewrite <- Hline, Hsplit.
  unfold wellFormed. rewrite before_app, after_app by done.
  repeat split; [|done..|by rewrite <- Hsplit].
  apply elem_of_app; right; left.
Qed.

Lemma CleanCommitMessage_first_line_witness :
  CleanCommitMessage (str "  fix(api): resolve null pointer " ++ LF :: str "details")
  = Some (str "fix(api): resolve null pointer").
Proof.
  apply (proj1 CleanCommitMessage_first_line _ _ (str "fix(api)") (str " resolve null pointer"));
    [by vm_compute | by vm_compute | | by vm_compute | by vm_compute | vm_compute; lia].
  apply (bool_decide_unpack _). by vm_compute.
Defined.

(** C9.  The normalizer always returns a string (the index expression
    [lines[0]] is never out of range); on the empty string and on white
    space only it returns the empty string; and when no pattern yields
    a candidate, in particular when the first line has no colon, it
    returns the trimmed first line. *)
Theorem CleanCommitMessage_total :
  (∀ message, ∃ cleaned, CleanCommitMessage message = Some cleaned)
  ∧ CleanCommitMessage [] = Some []
  ∧ CleanCommitMessage (str "   ") = Some []
  ∧ (∀ message, whitespaceOnly message → CleanCommitMessage message = Some [])
  ∧ (∀ message,
       let firstLine := TrimSpace (before LF (TrimSpace (Trim message quotes))) in
       ¬ wellFormed firstLine → tryPatterns patterns firstLine = None →
       CleanCommitMessage message = Some firstLine)
  ∧ (∀ message,
       let firstLine := TrimSpace (before LF (TrimSpace (Trim message quotes))) in
       ":" ∉ firstLine → CleanCommitMessage message = Some firstLine).
Proof.
  split; [|split; [|split; [|split; [|split]]]].
  - intros message. rewrite CleanCommitMessage_cases. by eexists.
  - by vm_compute.
  - by vm_compute.
  - intros message Hws.
    assert (∀ c, c ∈ message → c ∉ quotes) as Hq.
    { intros c Hc. destruct (whitespaceOnly_bytes message c Hws Hc) as (? & ? & _).
      unfold quotes. by intros [->|[->|?%elem_of_nil]%elem_of_cons]%elem_of_cons. }
    transitivity (CleanCommitMessage []); [|by vm_compute].
    apply CleanCommitMessage_firstLineOf. unfold firstLineOf.
    rewrite Trim_id.
    + rewrite (TrimSpace_whitespaceOnly message) by done. reflexivity.
    + intros c Hc%head_Some_elem_of. by apply Hq.
    + intros c Hc%last_Some_elem_of. by apply Hq.
  - intros message firstLine Hwf Hnone.
    change firstLine with (firstLineOf message) in *.
    rewrite CleanCommitMessage_cases, decide_False, Hnone by done. done.
  - intros message firstLine Hcolon.
    change firstLine with (firstLineOf message) in *.
    rewrite CleanCommitMessage_cases, decide_False.
    + by rewrite tryPatterns_no_colon.
    + by intros [? _].
Qed.

Lemma CleanCommitMessage_total_witness :
  CleanCommitMessage (str " add new feature " ++ LF :: str "body") = Some (str "add new feature").
Proof.
  apply (proj2 (proj2 (proj2 (proj2 (proj2 CleanCommitMessage_total))))
           (str " add new feature " ++ LF :: str "body")).
  apply (bool_decide_unpack _). by vm_compute.
Defined.

(** C3, as the code has it.  Cleaning a cleaned message changes nothing
    when the cleaned message neither begins nor ends with a quote
    character and is either the trimmed first line of the input or a
    trimmed line that passes the well-formedness check. *)
Theorem CleanCommitMessage_idempotent message cleaned :
  CleanCommitMessage message = Some cleaned →
  (∀ c, head cleaned = Some c → c ∉ quotes) →
  (∀ c, last cleaned = Some c → c ∉ quotes) →
  cleaned = TrimSpace (before LF (TrimSpace (Trim message quotes)))
    ∨ (TrimSpace cleaned = cleaned ∧ wellFormed cleaned) →
  CleanCommitMessage cleaned = Some cleaned.
Proof.
  intros Hclean Hhead Hlast Hcases.
  assert (firstLineOf cleaned = cleaned) as Hfixed.
  { apply firstLineOf_fixed; [done | done | |].
    - destruct Hcases as [->|[? _]]; [apply firstLineOf_trimmed | done].
    - intros HLF. apply (firstLineOf_no_LF message).
      eapply infix_elem_of; [by apply CleanCommitMessage_infix | done]. }
  destruct Hcases as [Hline|[_ Hwf]].
  - rewrite <- Hclean. apply CleanCommitMessage_firstLineOf.
    by rewrite Hfixed, Hline.
  - rewrite <- Hfixed at 2. apply CleanCommitMessage_wellFormed. by rewrite Hfixed.
Qed.

Lemma CleanCommitMessage_idempotent_witness :
  CleanCommitMessage (str "feat: add new feature") = Some (str "feat: add new feature").
Proof.
  apply (CleanCommitMessage_idempotent
           (str "Based on the changes, the commit message should be: "
              ++ DQUOTE :: str "feat: add new feature" ++ [DQUOTE])).
  - by vm_compute.
  - intros c Hc. vm_compute in Hc. injection Hc as <-.
    apply (bool_decide_unpack _). by vm_compute.
  - intros c Hc. vm_compute in Hc. injection Hc as <-.
    apply (bool_decide_unpack _). by vm_compute.
  - right. split; [by vm_compute|].
    apply (bool_decide_unpack _). by vm_compute.
Defined.

(** C3 fails in general.  When the first line ends with a quote and
    more lines follow, the quote survives the first cleaning and is
    trimmed by the second. *)
Lemma CleanCommitMessage_not_idempotent :
  let message := DQUOTE :: str "feat: add x" ++ DQUOTE :: LF :: str "This adds x." in
  CleanCommitMessage message = Some (str "feat: add x" ++ [DQUOTE])
  ∧ CleanCommitMessage (str "feat: add x" ++ [DQUOTE]) = Some (str "feat: add x")
  ∧ (CleanCommitMessage message ≫= CleanCommitMessage) ≠ CleanCommitMessage message.
Proof. by vm_compute. Qed.

(** Nor is a fragment extracted by a pattern always a fixed point: it
    can match a later pattern again. *)
Example CleanCommitMessage_extracts_twice :
  CleanCommitMessage (str ":commit message: :message: a:b") = Some (str ":message: a:b")
  ∧ CleanCommitMessage (str ":message: a:b") = Some (str "a:b").
Proof. by vm_compute. Qed.

End Normalizer.

(** * The validator, [ValidateCommitMessage] *)

Section Validator.
Import strings fmt regexp commitrules.

(** The outcome of the validator, by cases on the trimmed message. *)
Lemma ValidateCommitMessage_by_cases order message :
  let m := TrimSpace message in
  ValidateCommitMessage order message =
    if decide (":" ∈ m) then
      match CommitRules !! typeToken message with
      | None => {| stdout := []; err := Some (InvalidType (typeToken message) order) |}
      | Some _ =>
          if 72 <? length m then {| stdout := []; err := Some (TooLong (length m)) |}
          else if 50 <? length m
               then {| stdout := LengthWarning (length m); err := None |}
               else {| stdout := []; err := None |}
      end
    else {| stdout := []; err := Some MalformedFormat |}.
Proof.
  rewrite ValidateCommitMessage_cases. cbv zeta.
  unfold Errorf, Printf.
  by rewrite Sprintf_invalid_type, Sprintf_too_long, Sprintf_warning,
    GetCommitTypes_order.
Qed.

(** The repository's and the specification's sample messages. *)
Example validate_feat_add_x order :
  ValidateCommitMessage order (str "feat: add x") = {| stdout := []; err := None |}.
Proof. by vm_compute. Qed.

Example validate_chore_too_long order :
  ValidateCommitMessage order (str "chore: " ++ replicate 70 "a")
  = {| stdout := [];
       err := Some (errorString (str "commit message is too long: 77 characters (maximum: 72)")) |}.
Proof. by vm_compute. Qed.

Example validate_warning order :
  ValidateCommitMessage order (str "docs(readme): " ++ replicate 46 "a")
  = {| stdout := str "Warning: Commit message is 60 characters (recommended: <50)" ++ [LF];
       err := None |}.
Proof. by vm_compute. Qed.

(** C5.  The validator fails with the format error exactly when the
    trimmed message has no colon; [add new feature] is such a message. *)
Theorem ValidateCommitMessage_malformed :
  (∀ order message,
     err (ValidateCommitMessage order message)
       = Some (errorString (str "commit message must follow format: type(scope): description"))
     ↔ ":" ∉ TrimSpace message)
  ∧ (∀ order,
       ValidateCommitMessage order (str "add new feature")
       = {| stdout := [];
            err := Some (errorString
                           (str "commit message must follow format: type(scope): description")) |}).
Proof.
  split; [|by vm_compute].
  intros order message. rewrite ValidateCommitMessage_by_cases. cbv zeta.
  destruct (decide (":" ∈ TrimSpace message)) as [Hc|Hc]; [|done].
  split; [|done]. intros H. exfalso. revert H.
  destruct (CommitRules !! typeToken message).
  - destruct (72 <? _); [|by destruct (50 <? _)].
    unfold TooLong. cbn. discriminate.
  - unfold InvalidType. cbn. discriminate.
Qed.

(** C10.  [SplitN] with a count of two never returns an empty slice, so
    the branch that reports a missing type is never taken: every call
    ends in the format error, the invalid-type error, the length
    error, or success. *)
Theorem ValidateCommitMessage_outcomes :
  (∀ s, SplitN s (str "(") 2 ≠ [])
  ∧ (∀ order message,
       let r := ValidateCommitMessage order message in
       err r ≠ Some (errorString (str "commit message must have a type"))
       ∧ (r = {| stdout := []; err := Some MalformedFormat |}
          ∨ r = {| stdout := []; err := Some (InvalidType (typeToken message) order) |}
          ∨ r = {| stdout := []; err := Some (TooLong (length (TrimSpace message))) |}
          ∨ err r = None)).
Proof.
  split; [intros s; by apply genSplit_nonempty|].
  intros order message. cbv zeta. rewrite ValidateCommitMessage_by_cases. cbv zeta.
  destruct (decide (":" ∈ TrimSpace message)) as [Hc|Hc].
  - destruct (CommitRules !! typeToken message).
    + destruct (72 <? _).
      * split; [unfold TooLong; cbn; discriminate | auto].
      * destruct (50 <? _); (split; [done | auto]).
    + split; [unfold InvalidType; cbn; discriminate | auto].
  - split; [unfold MalformedFormat; cbn; discriminate | auto].
Qed.

(** C2.  For a message with a colon and a registered type token: longer
    than 72 bytes, the validator fails with the length error, which
    reports the length and the ceiling of 72; from 51 to 72 bytes it
    succeeds and prints the warning; up to 50 bytes it succeeds and
    prints nothing.  The two successes differ in what is printed. *)
Theorem ValidateCommitMessage_length order message :
  let m := TrimSpace message in
  ":" ∈ m →
  is_Some (CommitRules !! before "(" (TrimSpace (before ":" m))) →
  (72 < length m →
     ValidateCommitMessage order message
     = {| stdout := [];
          err := Some (errorString
                         (str "commit message is too long: "
                            ++ str (pretty (Z.of_nat (length m)))
                            ++ str " characters (maximum: 72)")) |})
  ∧ (50 < length m ∧ length m ≤ 72 →
     ValidateCommitMessage order message
     = {| stdout := str "Warning: Commit message is "
                      ++ str (pretty (Z.of_nat (length m)))
                      ++ str " characters (recommended: <50)" ++ [LF];
          err := None |})
  ∧ (length m ≤ 50 →
     ValidateCommitMessage order message = {| stdout := []; err := None |})
  ∧ (∀ n, {| stdout := LengthWarning n; err := None |} ≠ {| stdout := []; err := None |}).
Proof.
  intros m Hc [rule Hrule]. change (before "(" _) with (typeToken message) in Hrule.
  rewrite ValidateCommitMessage_by_cases. cbv zeta. fold m.
  rewrite decide_True, Hrule by done.
  split; [|split; [|split]].
  - intros Hlen. by apply Nat.ltb_lt in Hlen as ->.
  - intros [H50 H72]. apply Nat.ltb_lt in H50 as ->.
    by apply Nat.ltb_ge in H72 as ->.
  - intros Hlen.
    assert ((72 <? length m) = false) as -> by (apply Nat.ltb_ge; lia).
    by apply Nat.ltb_ge in Hlen as ->.
  - intros n. unfold LengthWarning. cbn. discriminate.
Qed.

Lemma ValidateCommitMessage_length_witness :
  ValidateCommitMessage [] (str "docs(readme): " ++ replicate 46 "a")
  = {| stdout := str "Warning: Commit message is 60 characters (recommended: <50)" ++ [LF];
       err := None |}.
Proof.
  refine (proj1 (proj2 (ValidateCommitMessage_length []
                          (str "docs(readme): " ++ replicate 46 "a") _ _)) _).
  - apply (bool_decide_unpack _). by vm_compute.
  - vm_compute. by eexists.
  - vm_compute. lia.
Defined.

(** C6, as the code has it.  The type token is taken from the part
    before the first colon once that part is trimmed of white space.
    For a message with a colon whose type token, so taken, is not
    registered the validator fails with the invalid-type error, and the
    text of the error contains every registered type; [bogus: add x]
    is such a message. *)
Theorem ValidateCommitMessage_invalid_type order :
  rangeOrder CommitRules order →
  (∀ message,
     ":" ∈ TrimSpace message →
     CommitRules !! before "(" (TrimSpace (before ":" (TrimSpace message))) = None →
     ∃ text,
       ValidateCommitMessage order message = {| stdout := []; err := Some (errorString text) |}
       ∧ text = str "invalid commit type: "
                  ++ before "(" (TrimSpace (before ":" (TrimSpace message)))
                  ++ str ". Valid types: " ++ Join order (str ", ")
       ∧ ∀ t, is_Some (CommitRules !! t) → infix t text)
  ∧ (∃ text,
       ValidateCommitMessage order (str "bogus: add x")
         = {| stdout := []; err := Some (errorString text) |}
       ∧ text = str "invalid commit type: bogus. Valid types: " ++ Join order (str ", ")
       ∧ Forall (λ t, infix t text)
           [str "feat"; str "fix"; str "docs"; str "style"; str "refactor";
            str "test"; str "chore"]).
Proof.
  intros Horder.
  assert (∀ t pre mid, is_Some (CommitRules !! t) →
            infix t (pre ++ mid ++ Join order (str ", "))) as Hall.
  { intros t pre mid Ht.
    eapply infix_trans; [apply Join_infix, (rangeOrder_elem_of order t Horder), Ht|].
    apply infix_suffix. exists (pre ++ mid). by rewrite <- app_assoc. }
  split.
  - intros message Hc Hnone. change (before "(" _) with (typeToken message) in *.
    eexists. split; [|split; [done|]].
    + rewrite ValidateCommitMessage_by_cases. cbv zeta.
      by rewrite decide_True, Hnone.
    + intros t Ht. rewrite app_assoc. apply Hall, Ht.
  - eexists. split; [|split; [done|]].
    + rewrite ValidateCommitMessage_by_cases. cbv zeta. rewrite decide_True.
      * reflexivity.
      * apply (bool_decide_unpack _). by vm_compute.
    + apply Forall_forall. intros t Ht%registered_iff.
      apply (Hall t (str "invalid commit type: bogus. Valid types: ") [] Ht).
Qed.

Lemma ValidateCommitMessage_invalid_type_witness :
  ∃ text,
    ValidateCommitMessage
      [str "feat"; str "fix"; str "docs"; str "style"; str "refactor"; str "test"; str "chore"]
      (str "feature(ui): add x")
    = {| stdout := []; err := Some (errorString text) |}
    ∧ text = str "invalid commit type: feature. Valid types: feat, fix, docs, style, refactor, test, chore"
    ∧ ∀ t, is_Some (CommitRules !! t) → infix t text.
Proof.
  refine (proj1 (ValidateCommitMessage_invalid_type
                   [str "feat"; str "fix"; str "docs"; str "style"; str "refactor";
                    str "test"; str "chore"] _) (str "feature(ui): add x") _ _).
  - unfold rangeOrder. apply (bool_decide_unpack _). by vm_compute.
  - apply (bool_decide_unpack _). by vm_compute.
  - by vm_compute.
Defined.

(** C6 as stated fails: in [feat : add x] the text before the first
    parenthesis of the part before the colon is [feat] followed by a
    space, which is not a registered type; the validator trims that
    part before the lookup, and accepts the message. *)
Lemma ValidateCommitMessage_untrimmed_type_token :
  let message := str "feat : add x" in
  ":" ∈ message
  ∧ before "(" (before ":" message) = str "feat "
  ∧ CommitRules !! before "(" (before ":" message) = None
  ∧ ∀ order, ValidateCommitMessage order message = {| stdout := []; err := None |}.
Proof.
  split; [apply (bool_decide_unpack _); by vm_compute|].
  split; [reflexivity|]. split; [by vm_compute|].
  intros order. rewrite ValidateCommitMessage_by_cases. cbv zeta.
  rewrite decide_True by (apply (bool_decide_unpack _); by vm_compute).
  reflexivity.
Qed.

End Validator.

(** * The prompt builder, [GetPrompt] *)

Section PromptBuilder.
Import strings fmt regexp commitrules.

(** The two fixed parts of the prompt: the text before the list of
    types and the text between that list and the analysis input. *)
Lemma GetPrompt_shape order analysisInput :
  GetPrompt order analysisInput
  = take 182 promptFormat ++ Join order (str ", ")
      ++ take 586 (drop 184 promptFormat) ++ analysisInput.
Proof.
  unfold GetPrompt. cbv zeta. rewrite GetCommitTypes_order.
  generalize (Join order (str ", ")) as types. intros types.
  rewrite <- (app_nil_r analysisInput) at 2.
  vm_compute. reflexivity.
Qed.

(** The repository's test of the prompt ([TestPromptStructure]), for
    one order of the types. *)
Example test_prompt_structure :
  let analysisInput := str "feat(service): add new endpoint" in
  let prompt := GetPrompt [str "fix"; str "test"; str "feat"; str "docs";
                           str "refactor"; str "chore"; str "style"] analysisInput in
  Forall (λ element, Contains prompt element = true)
    [str "type(scope): description"; str "Maximum 50 characters total";
     str "conventional commit message";
     str "CRITICAL: Respond with ONLY the commit message";
     str "Git diff to analyze:"; analysisInput]
  ∧ Forall (λ element, Contains prompt element = false)
      [str "TODO"; str "FIXME"; str "<placeholder>"].
Proof. split; apply (bool_decide_unpack _); by vm_compute. Qed.

(** C4.  For every analysis input, the empty one included, the prompt
    contains each registered commit type and ends with the input. *)
Theorem GetPrompt_contents order analysisInput :
  rangeOrder CommitRules order →
  Forall (λ t, infix t (GetPrompt order analysisInput))
    [str "feat"; str "fix"; str "docs"; str "style"; str "refactor";
     str "test"; str "chore"]
  ∧ analysisInput `suffix_of` GetPrompt order analysisInput.
Proof.
  intros Horder. rewrite GetPrompt_shape. split.
  - apply Forall_forall. intros t Ht%registered_iff.
    apply (rangeOrder_elem_of order t Horder) in Ht.
    eapply infix_trans; [by apply (Join_infix order (str ", "))|].
    eexists _, _. reflexivity.
  - eexists. by rewrite !app_assoc.
Qed.

Lemma GetPrompt_contents_witness :
  Forall (λ t, infix t
            (GetPrompt [str "chore"; str "test"; str "refactor"; str "style";
                        str "docs"; str "fix"; str "feat"] []))
    [str "feat"; str "fix"; str "docs"; str "style"; str "refactor";
     str "test"; str "chore"]
  ∧ [] `suffix_of` GetPrompt [str "chore"; str "test"; str "refactor"; str "style";
                              str "docs"; str "fix"; str "feat"] [].
Proof.
  apply GetPrompt_contents.
  unfold rangeOrder. apply (bool_decide_unpack _). by vm_compute.
Defined.

(** C8, as the code has it.  The prompt is a function of the analysis
    input and of the order in which the loop of [GetCommitTypes] visits
    the registry: two prompts for one input have the same fixed text
    around the list of types, the same types in the list, and the same
    length; they differ in the order of the list only. *)
Theorem GetPrompt_up_to_order :
  ∃ head tail,
    ∀ order1 order2 analysisInput,
      rangeOrder CommitRules order1 → rangeOrder CommitRules order2 →
      GetPrompt order1 analysisInput
        = head ++ Join order1 (str ", ") ++ tail ++ analysisInput
      ∧ GetPrompt order2 analysisInput
        = head ++ Join order2 (str ", ") ++ tail ++ analysisInput
      ∧ order1 ≡ₚ order2
      ∧ length (GetPrompt order1 analysisInput) = length (GetPrompt order2 analysisInput).
Proof.
  eexists _, _. intros order1 order2 analysisInput H1 H2.
  split; [apply GetPrompt_shape|]. split; [apply GetPrompt_shape|].
  assert (order1 ≡ₚ order2) as Hp by (unfold rangeOrder in *; by rewrite H1, H2).
  split; [done|].
  rewrite !GetPrompt_shape, !length_app. f_equal. f_equal.
  by apply Join_length_Permutation.
Qed.

Lemma GetPrompt_up_to_order_witness :
  length (GetPrompt [str "feat"; str "fix"; str "docs"; str "style"; str "refactor";
                     str "test"; str "chore"] (str "diff"))
  = length (GetPrompt [str "chore"; str "test"; str "refactor"; str "style";
                       str "docs"; str "fix"; str "feat"] (str "diff")).
Proof.
  destruct GetPrompt_up_to_order as (head & tail & H).
  apply H; unfold rangeOrder; apply (bool_decide_unpack _); by vm_compute.
Defined.

(** C8 fails as stated: two executions of the loop over the registry may
    visit the types in different orders, and the prompts then differ. *)
Lemma GetPrompt_depends_on_order :
  let order1 := [str "feat"; str "fix"; str "docs"; str "style"; str "refactor";
                 str "test"; str "chore"] in
  let order2 := [str "fix"; str "feat"; str "docs"; str "style"; str "refactor";
                 str "test"; str "chore"] in
  rangeOrder CommitRules order1 ∧ rangeOrder CommitRules order2
  ∧ GetPrompt order1 [] ≠ GetPrompt order2 [].
Proof.
  cbv zeta. split; [|split].
  - unfold rangeOrder. apply (bool_decide_unpack _). by vm_compute.
  - unfold rangeOrder. apply (bool_decide_unpack _). by vm_compute.
  - vm_compute. discriminate.
Qed.

End PromptBuilder.

(** * More on the normalizer and the validator *)

Section TrimKeeps.
Import strings.

Lemma prefix_app_notin (e a b : gostring) c :
  e `prefix_of` a ++ c :: b → c ∉ e → e `prefix_of` a.
Proof.
  intros He Hc.
  destruct (prefix_weak_total e a (a ++ c :: b)) as [H|[k Hk]];
    [done | by eexists | done |].
  destruct k as [|x k]; [rewrite app_nil_r in Hk; by subst|].
  destruct He as [k' Hk']. rewrite Hk, <- app_assoc in Hk'.
  apply app_inv_head in Hk'. injection Hk' as <- _.
  destruct Hc. rewrite Hk. apply elem_of_app; right; left.
Qed.

(** Stripping runes never goes past a byte that occurs in none of the
    encodings. *)
Lemma stripLeading_keeps encs n (a b : gostring) c :
  (∀ e, e ∈ encs → c ∉ e) →
  ∃ a', a' `suffix_of` a ∧ stripLeading encs n (a ++ c :: b) = a' ++ c :: b.
Proof.
  intros Hc. revert a; induction n as [|n IH]; intros a; cbn [stripLeading].
  - by exists a.
  - destruct (leadingWidth encs (a ++ c :: b)) as [w|] eqn:Hw; [|by exists a].
    apply leadingWidth_Some in Hw as (e & He & Hpre & ->).
    apply prefix_app_notin in Hpre as Hpre'; [|by apply Hc].
    rewrite drop_app_le by by apply prefix_length.
    destruct (IH (drop (length e) a)) as (a' & Ha' & ->).
    exists a'. split; [|done]. etrans; [done | apply suffix_drop].
Qed.

Lemma TrimSpace_keeps (p rest : gostring) c :
  leadingWidth spaceEncodings (p ++ c :: rest) = None →
  (∀ e, e ∈ spaceEncodings → c ∉ e) →
  ∃ rest', rest' `prefix_of` rest ∧ TrimSpace (p ++ c :: rest) = p ++ c :: rest'.
Proof.
  intros Hlead Hc. unfold TrimSpace. rewrite trimLeftSpace_fixed by done.
  unfold trimRightSpace. rewrite reverse_app, reverse_cons, <- app_assoc. cbn [app].
  destruct (stripLeading_keeps (reverse <$> spaceEncodings)
              (length (p ++ c :: rest)) (reverse rest) (reverse p) c) as (a' & [k Hk] & ->).
  { intros e (e' & -> & He')%list_elem_of_fmap Hin.
    rewrite elem_of_reverse in Hin. by apply (Hc e' He'). }
  exists (reverse a'). split.
  - exists (reverse k). apply (inj reverse).
    by rewrite reverse_app, !reverse_involutive.
  - by rewrite reverse_app, reverse_cons, reverse_involutive, <- app_assoc.
Qed.

(** The bytes of the white-space encodings: no printable ASCII character
    is among them. *)
Lemma spaceEncodings_bytes e c :
  e ∈ spaceEncodings → c ∈ e → c ∈ [" "] ∨ nat_of_ascii c < 32 ∨ 127 < nat_of_ascii c.
Proof.
  intros He Hc.
  assert (Forall (Forall (λ b, b ∈ [" "] ∨ nat_of_ascii b < 32 ∨ 127 < nat_of_ascii b))
            spaceEncodings) as H.
  { apply (bool_decide_unpack _). by vm_compute. }
  rewrite Forall_forall in H. specialize (H e He).
  rewrite Forall_forall in H. exact (H c Hc).
Qed.

End TrimKeeps.

Section MoreNormalizer.
Import strings fmt regexp commitrules.

Lemma firstLineOf_infix message : infix (firstLineOf message) message.
Proof.
  unfold firstLineOf.
  eapply infix_trans; [apply TrimSpace_infix|].
  eapply infix_trans; [apply infix_prefix, before_prefix|].
  eapply infix_trans; [apply TrimSpace_infix | apply Trim_infix].
Qed.

Lemma infix_shorter (a b : gostring) : infix a b → length a ≤ length b.
Proof. intros (l & r & ->). rewrite !length_app. lia. Qed.

(** X1.  Whatever the normalizer returns is a contiguous piece of its
    input: it adds and reorders nothing, its result is never longer than
    the input and never holds a line feed. *)
Theorem CleanCommitMessage_substring message cleaned :
  CleanCommitMessage message = Some cleaned →
  infix cleaned message ∧ (LF ∉ cleaned) ∧ length cleaned ≤ length message.
Proof.
  intros H. apply CleanCommitMessage_infix in H.
  assert (infix cleaned message) as Hin
    by (eapply infix_trans; [done | apply firstLineOf_infix]).
  split; [done|]. split; [|by apply infix_shorter].
  intros HLF. apply (firstLineOf_no_LF message). by eapply infix_elem_of.
Qed.

Lemma CleanCommitMessage_substring_witness :
  infix (str "feat: add new feature")
    (str "Based on the changes, the commit message should be: "
       ++ DQUOTE :: str "feat: add new feature" ++ [DQUOTE])
  ∧ (LF ∉ str "feat: add new feature")
  ∧ length (str "feat: add new feature")
    ≤ length (str "Based on the changes, the commit message should be: "
                ++ DQUOTE :: str "feat: add new feature" ++ [DQUOTE]).
Proof.
  apply CleanCommitMessage_substring. by vm_compute.
Defined.

(** X2.  A message on one line, without white space or quotes at its
    ends, that has no colon at all or is well formed, passes through the
    normalizer unchanged, whatever its length in the first case. *)
Theorem CleanCommitMessage_unchanged message :
  TrimSpace message = message →
  LF ∉ message →
  (∀ c, head message = Some c → c ∉ quotes) →
  (∀ c, last message = Some c → c ∉ quotes) →
  ":" ∉ message ∨ wellFormed message →
  CleanCommitMessage message = Some message.
Proof.
  intros Htrim HLF Hhead Hlast Hshape.
  pose proof (firstLineOf_fixed message Hhead Hlast Htrim HLF) as Hfixed.
  rewrite CleanCommitMessage_cases, Hfixed.
  destruct Hshape as [Hcolon|Hwf].
  - rewrite decide_False by (by intros [? _]).
    by rewrite tryPatterns_no_colon.
  - by rewrite decide_True.
Qed.

Lemma CleanCommitMessage_unchanged_witness :
  CleanCommitMessage (replicate 1000 "a") = Some (replicate 1000 "a").
Proof.
  apply CleanCommitMessage_unchanged.
  - by vm_compute.
  - apply (bool_decide_unpack _). by vm_compute.
  - intros c Hc. vm_compute in Hc. injection Hc as <-.
    apply (bool_decide_unpack _). by vm_compute.
  - intros c Hc. vm_compute in Hc. injection Hc as <-.
    apply (bool_decide_unpack _). by vm_compute.
  - left. apply (bool_decide_unpack _). by vm_compute.
Defined.

End MoreNormalizer.

Section MoreValidator.
Import strings fmt regexp commitrules.

(** X3.  The validator accepts a message exactly when the trimmed
    message has a colon, the text before the first parenthesis of the
    trimmed part before the first colon is a registered type, and the
    trimmed message is at most 72 bytes long. *)
Theorem ValidateCommitMessage_accepts_iff order message :
  err (ValidateCommitMessage order message) = None
  ↔ ":" ∈ TrimSpace message
    ∧ is_Some (CommitRules !! before "(" (TrimSpace (before ":" (TrimSpace message))))
    ∧ length (TrimSpace message) ≤ 72.
Proof.
  change (before "(" _) with (typeToken message).
  rewrite ValidateCommitMessage_by_cases. cbv zeta.
  destruct (decide (":" ∈ TrimSpace message)) as [Hc|Hc]; [|by split; [|intros [? _]]].
  destruct (CommitRules !! typeToken message) as [rule|];
    [|split; [done | by intros (_ & [? ?] & _)]].
  destruct (Nat.ltb_spec 72 (length (TrimSpace message))) as [Hlen|Hlen].
  - split; [done | intros (_ & _ & ?); lia].
  - split; [by intros _; eauto|]. intros _. by destruct (50 <? _).
Qed.

(** X4.  Validation looks at the trimmed message only: trimming the
    message beforehand does not change the outcome. *)
Theorem ValidateCommitMessage_trimmed order message :
  ValidateCommitMessage order (TrimSpace message) = ValidateCommitMessage order message.
Proof. unfold ValidateCommitMessage. by rewrite TrimSpace_idemp. Qed.

Lemma registered_shape t :
  is_Some (CommitRules !! t) →
  (":" ∉ t) ∧ ("(" ∉ t) ∧ TrimSpace t = t
  ∧ ∀ x, leadingWidth spaceEncodings (t ++ x) = None.
Proof.
  intros H%registered_iff.
  repeat (apply elem_of_cons in H; destruct H as [->|H]);
    [..|by apply elem_of_nil in H];
    (split; [apply (bool_decide_unpack _); by vm_compute|]);
    (split; [apply (bool_decide_unpack _); by vm_compute|]);
    (split; [by vm_compute | intros x; by vm_compute]).
Qed.

Lemma printable_not_space c :
  c ∈ [":"; "("] → ∀ e, e ∈ spaceEncodings → c ∉ e.
Proof.
  intros Hc e He Hin.
  destruct (spaceEncodings_bytes e c He Hin) as [H|[H|H]];
    repeat (apply elem_of_cons in Hc; destruct Hc as [->|Hc]);
    try (by apply elem_of_nil in Hc);
    try (by apply list_elem_of_singleton in H);
    vm_compute in H; lia.
Qed.

(** X5.  Once the type is registered nothing else of the message is
    examined but its length: after [type:] or [type(scope:], with any
    scope that has no colon, whether or not the parenthesis is closed,
    and any description, the empty one included, the validator accepts
    exactly when the trimmed message is at most 72 bytes long. *)
Theorem ValidateCommitMessage_type_only order commitType scope rest :
  is_Some (CommitRules !! commitType) →
  ":" ∉ scope →
  (err (ValidateCommitMessage order (commitType ++ ":" :: rest)) = None
   ↔ length (TrimSpace (commitType ++ ":" :: rest)) ≤ 72)
  ∧ (err (ValidateCommitMessage order (commitType ++ "(" :: scope ++ ":" :: rest)) = None
     ↔ length (TrimSpace (commitType ++ "(" :: scope ++ ":" :: rest)) ≤ 72).
Proof.
  intros Hreg Hscope.
  destruct (registered_shape commitType Hreg) as (Hcolon & Hparen & Htrim & Hlead).
  split; rewrite ValidateCommitMessage_accepts_iff.
  - destruct (TrimSpace_keeps commitType rest ":") as (rest' & _ & ->);
      [apply Hlead | apply printable_not_space; set_solver|].
    rewrite before_app, Htrim, before_id by done.
    split; [by intros (_ & _ & ?)|]. intros Hlen.
    split; [apply elem_of_app; right; left | done].
  - replace (commitType ++ "(" :: scope ++ ":" :: rest)
      with ((commitType ++ "(" :: scope) ++ ":" :: rest) by by rewrite <- app_assoc.
    destruct (TrimSpace_keeps (commitType ++ "(" :: scope) rest ":") as (rest' & _ & ->);
      [rewrite <- app_assoc; apply Hlead | apply printable_not_space; set_solver|].
    rewrite before_app.
    2:{ intros [?|[?|?]%elem_of_cons]%elem_of_app; done. }
    destruct (TrimSpace_keeps commitType scope "(") as (scope' & _ & ->);
      [apply Hlead | apply printable_not_space; set_solver|].
    rewrite before_app by done.
    split; [by intros (_ & _ & ?)|]. intros Hlen.
    split; [apply elem_of_app; right; left | done].
Qed.

Lemma ValidateCommitMessage_type_only_witness :
  (err (ValidateCommitMessage [] (str "feat:")) = None
   ↔ length (TrimSpace (str "feat:")) ≤ 72)
  ∧ (err (ValidateCommitMessage [] (str "feat(core:")) = None
     ↔ length (TrimSpace (str "feat(core:")) ≤ 72).
Proof.
  apply (ValidateCommitMessage_type_only [] (str "feat") (str "core") []).
  - vm_compute. by eexists.
  - apply (bool_decide_unpack _). by vm_compute.
Defined.

End MoreValidator.

(** * The helpers of [main.go] *)

Section MainHelpers.
Import strings fmt regexp commitrules main.

Lemma Split_notin c s : c ∉ s → Split s [c] = [s].
Proof. intros Hn. unfold Split, genSplit; simpl. by apply splitLoop_notin. Qed.

Lemma Split_in c s : c ∈ s → ∃ line1 rest, Split s [c] = before c s :: line1 :: rest.
Proof.
  intros Hin. pose proof (Split_head c s) as Hhead.
  unfold Split, genSplit in *. cbn [Z.eqb] in *.
  set (n := Z.to_nat _) in *.
  destruct n as [|n]; cbn [splitLoop] in *.
  - injection Hhead as Hs. destruct (before_notin c s). by rewrite <- Hs.
  - rewrite Index_byte_in, take_before in * by done.
    destruct (splitLoop n (drop (length (before c s) + length [c]) s) [c])
      as [|line1 rest] eqn:Hl; [by apply splitLoop_nonempty in Hl | by eexists _, _].
Qed.

(** The first cleaner returns the first line of the trimmed input,
    trimmed again. *)
Lemma cleanCommitMessage_firstLineOf message :
  cleanCommitMessage message = firstLineOf message.
Proof.
  unfold cleanCommitMessage, firstLineOf. cbv zeta.
  change [DQUOTE; SQUOTE] with quotes.
  set (m := TrimSpace (Trim message quotes)).
  destruct (decide (LF ∈ m)) as [Hin|Hn].
  - by destruct (Split_in LF m Hin) as (line1 & rest & ->).
  - rewrite Split_notin, before_id by done. subst m. by rewrite TrimSpace_idemp.
Qed.

(** The table of the repository's test of the first cleaner. *)
Example test_cleanCommitMessage_table :
  cleanCommitMessage (str "feat: add new feature") = str "feat: add new feature"
  ∧ cleanCommitMessage (DQUOTE :: str "feat: add new feature" ++ [DQUOTE])
    = str "feat: add new feature"
  ∧ cleanCommitMessage (str "  feat: add new feature  ") = str "feat: add new feature"
  ∧ cleanCommitMessage (str "'feat: add new feature'") = str "feat: add new feature"
  ∧ cleanCommitMessage (str "feat: add new feature" ++ [LF; LF] ++ str "This is the description")
    = str "feat: add new feature"
  ∧ cleanCommitMessage [] = []
  ∧ cleanCommitMessage (str "   ") = []
  ∧ cleanCommitMessage (str "fix: resolve bug   " ++ [LF; LF] ++ str "  ")
    = str "fix: resolve bug".
Proof. by vm_compute. Qed.

(** X6.  What [cleanCommitMessage] returns is a piece of its input, on
    one line, with no white space at either end. *)
Theorem cleanCommitMessage_single_line message :
  infix (cleanCommitMessage message) message
  ∧ (LF ∉ cleanCommitMessage message)
  ∧ TrimSpace (cleanCommitMessage message) = cleanCommitMessage message.
Proof.
  rewrite cleanCommitMessage_firstLineOf.
  split; [apply firstLineOf_infix|].
  split; [apply firstLineOf_no_LF | apply firstLineOf_trimmed].
Qed.

(** X7.  The normalizer of [commitrules] and the first cleaner of
    [main.go]: the new result is always a piece of the old one, and the
    two are equal whenever the old result is well formed or has no
    colon. *)
Theorem CleanCommitMessage_refines_cleanCommitMessage message :
  ∃ cleaned,
    CleanCommitMessage message = Some cleaned
    ∧ infix cleaned (cleanCommitMessage message)
    ∧ (wellFormed (cleanCommitMessage message) ∨ ":" ∉ cleanCommitMessage message →
       cleaned = cleanCommitMessage message).
Proof.
  rewrite cleanCommitMessage_firstLineOf.
  destruct (CleanCommitMessage message) as [cleaned|] eqn:Hc.
  2:{ by rewrite CleanCommitMessage_cases in Hc. }
  exists cleaned. split; [done|]. split; [by apply CleanCommitMessage_infix|].
  rewrite CleanCommitMessage_cases in Hc. apply (inj Some) in Hc. subst cleaned.
  intros [Hwf|Hcolon].
  - by rewrite decide_True.
  - rewrite decide_False by (by intros [? _]). by rewrite tryPatterns_no_colon.
Qed.

Lemma ContainsAny_true s chars :
  ContainsAny s chars = true ↔ ∃ c, c ∈ s ∧ c ∈ chars.
Proof.
  unfold ContainsAny. rewrite existsb_exists. split.
  - intros (c & Hin & Hc). exists c. split; [by apply list_elem_of_In|].
    by apply bool_decide_eq_true in Hc.
  - intros (c & Hin & Hc). exists c. split; [by apply list_elem_of_In|].
    by apply bool_decide_eq_true.
Qed.

(** X8.  [validateFilePath] accepts exactly the non-empty paths that
    hold neither two consecutive dots nor one of the eleven refused
    characters. *)
Theorem validateFilePath_accepts_iff path :
  validateFilePath path = true
  ↔ path ≠ [] ∧ ¬ infix (str "..") path ∧ ∀ c, c ∈ path → c ∉ dangerous.
Proof.
  unfold validateFilePath.
  destruct (Contains path (str "..")) eqn:Hdots.
  { apply Contains_infix in Hdots. split; [done | by intros (_ & ? & _)]. }
  assert (¬ infix (str "..") path) as Hnd.
  { intros H%Contains_infix. congruence. }
  destruct (ContainsAny path dangerous) eqn:Hany.
  { apply ContainsAny_true in Hany as (c & Hc1 & Hc2).
    split; [done | intros (_ & _ & Hall); by destruct (Hall c)]. }
  assert (∀ c, c ∈ path → c ∉ dangerous) as Hsafe.
  { intros c ? ?. assert (ContainsAny path dangerous = true) as E
      by (apply ContainsAny_true; eauto). congruence. }
  case_bool_decide as Hnil; [split; [done | by intros (? & _)] | done].
Qed.

(** X9.  The check does not look at how a path begins: an accepted path
    stays accepted with a dash or a slash put in front, so names that
    read as options and absolute paths are not refused. *)
Theorem validateFilePath_leading_dash_or_slash path c :
  validateFilePath path = true → c ∈ ["-"; "/"] →
  validateFilePath (c :: path) = true.
Proof.
  rewrite !validateFilePath_accepts_iff. intros (Hne & Hdots & Hsafe) Hc.
  split; [done|]. split.
  - intros ([|x l] & r & Heq).
    + cbn in Heq. injection Heq as -> _.
      repeat (apply elem_of_cons in Hc; destruct Hc as [Hc|Hc]); try discriminate Hc.
      by apply elem_of_nil in Hc.
    + injection Heq as _ ->. apply Hdots. by exists l, r.
  - intros x [->|Hx]%elem_of_cons; [|by apply Hsafe].
    repeat (apply elem_of_cons in Hc; destruct Hc as [->|Hc]);
      [..|by apply elem_of_nil in Hc]; apply (bool_decide_unpack _); by vm_compute.
Qed.

Lemma validateFilePath_leading_dash_or_slash_witness :
  validateFilePath (str "--output=report.txt") = true.
Proof.
  apply (validateFilePath_leading_dash_or_slash (str "-output=report.txt") "-").
  - by vm_compute.
  - left.
Defined.

End MainHelpers.

(** * The program: analyses, provider call and commit *)

Section ProgramFacts.
Import strings fmt regexp commitrules main.

Variable env : list event → call → reply.

Lemma sat_ret {A} (a : A) (T : A → list event → Prop) : T a [] → sat (ret a) T.
Proof. intros HT h. exists a, []. by rewrite app_nil_r. Qed.

Lemma sat_perform c (T : reply → list event → Prop) :
  (∀ r, T r [(c, r)]) → sat (perform env c) T.
Proof. intros HT h. by exists (env h c), [(c, env h c)]. Qed.

Lemma sat_bind {A B} (m : M A) (f : A → M B) T1 (T : B → list event → Prop) :
  sat m T1 →
  (∀ a new1, T1 a new1 → sat (f a) (λ b new2, T b (new1 ++ new2))) →
  sat (m ≫= f) T.
Proof.
  intros Hm Hf h. destruct (Hm h) as (a & new1 & Hrun & HT1).
  destruct (Hf a new1 HT1 (h ++ new1)) as (b & new2 & Hrun' & HT).
  exists b, (new1 ++ new2). split; [|done].
  unfold mbind, M_bind, bind. by rewrite Hrun, Hrun', app_assoc.
Qed.

Lemma sat_mono {A} (m : M A) (T1 T : A → list event → Prop) :
  sat m T1 → (∀ a new, T1 a new → T a new) → sat m T.
Proof.
  intros Hm HT h. destruct (Hm h) as (a & new & ? & ?). exists a, new. auto.
Qed.

(** One step, then the rest. *)
Lemma sat_perform_bind {B} c (f : reply → M B) (T : B → list event → Prop) :
  (∀ r, sat (f r) (λ b new, T b ((c, r) :: new))) → sat (perform env c ≫= f) T.
Proof.
  intros Hf. eapply sat_bind; [apply (sat_perform c (λ r new, new = [(c, r)])); done|].
  intros r new1 ->. apply Hf.
Qed.

(** The loop over the files keeps what was written, and runs the
    per-file step on accepted paths only. *)
Lemma excerpts_sat heading fetch files analysisInput :
  (∀ file, validateFilePath file = true → analysisStep (fetch file)) →
  sat (excerpts env heading fetch files analysisInput)
    (λ written new,
       analysisInput `prefix_of` written ∧ Forall (λ ev, analysisStep ev.1) new).
Proof.
  intros Hfetch. revert analysisInput.
  induction files as [|file files IH]; intros analysisInput; cbn [excerpts].
  - by apply sat_ret.
  - destruct (validateFilePath file) eqn:Hvalid; cbn [negb]; [|apply IH].
    assert (analysisStep (Stat file)) as Hstat.
    { right. exists file. split; [done | left]. }
    apply sat_perform_bind. intros st. destruct (failure st).
    + eapply sat_mono; [apply IH|]. intros written new [? ?].
      split; [done | by apply Forall_cons].
    + apply sat_perform_bind. intros r.
      eapply sat_mono; [apply IH|]. intros written new [Hpre ?]. split.
      * etrans; [|exact Hpre]. etrans; apply prefix_app_r; done.
      * apply Forall_cons; split; [done|]. apply Forall_cons; split; [|done].
        by apply Hfetch.
Qed.

Lemma fetch_cached file :
  validateFilePath file = true →
  analysisStep (CmdOutput (Command (str "git")
                  [str "diff"; str "--cached"; str "--unified=3"; str "--"; file])).
Proof. intros H. right. exists file. split; [done|]. set_solver. Qed.

Lemma fetch_diff file :
  validateFilePath file = true →
  analysisStep (CmdOutput (Command (str "git") [str "diff"; str "--unified=3"; file])).
Proof. intros H. right. exists file. split; [done|]. set_solver. Qed.

Lemma fetch_read file : validateFilePath file = true → analysisStep (ReadFile file).
Proof. intros H. right. exists file. split; [done|]. set_solver. Qed.

Lemma listing_step cmd : cmd ∈ listings → analysisStep (CmdOutput cmd).
Proof. intros H. left. by exists cmd. Qed.

Ltac listing := apply listing_step; unfold listings; set_solver.

Lemma analyzeStagedChanges_sat : sat (analyzeStagedChanges env) analysisResult.
Proof.
  unfold analyzeStagedChanges. apply sat_perform_bind. intros r.
  assert (analysisStep (CmdOutput (Command (str "git")
            [str "diff"; str "--cached"; str "--name-only"]))) as H1 by listing.
  destruct (failure r).
  { apply sat_ret. split; [by apply Forall_singleton | done]. }
  case_bool_decide.
  { apply sat_ret. split; [by apply Forall_singleton | done]. }
  cbv zeta. apply sat_perform_bind. intros r2.
  assert (analysisStep (CmdOutput (Command (str "git")
            [str "diff"; str "--cached"; str "--stat"]))) as H2 by listing.
  eapply sat_bind; [apply excerpts_sat, fetch_cached|].
  intros written new [Hpre Hnew]. apply sat_ret.
  rewrite app_nil_r. split; [by repeat (apply Forall_cons; split)|].
  split; [intros _ | done]. cbn [fst]. etrans; [|exact Hpre].
  rewrite <- !app_assoc. by eexists.
Qed.

Lemma analyzeUntrackedFiles_sat : sat (analyzeUntrackedFiles env) analysisResult.
Proof.
  unfold analyzeUntrackedFiles. apply sat_perform_bind. intros r.
  assert (analysisStep (CmdOutput (Command (str "git")
            [str "ls-files"; str "--others"; str "--exclude-standard"]))) as H1 by listing.
  destruct (failure r).
  { apply sat_ret. split; [by apply Forall_singleton | done]. }
  case_bool_decide.
  { apply sat_ret. split; [by apply Forall_singleton | done]. }
  cbv zeta.
  eapply sat_bind; [apply excerpts_sat, fetch_read|].
  intros written new [Hpre Hnew]. apply sat_ret.
  rewrite app_nil_r. split; [by repeat (apply Forall_cons; split)|].
  split; [intros _ | done]. cbn [fst]. etrans; [|exact Hpre].
  rewrite <- !app_assoc. by eexists.
Qed.

Lemma analyzeAllChanges_sat : sat (analyzeAllChanges env) analysisResult.
Proof.
  unfold analyzeAllChanges. apply sat_perform_bind. intros modified.
  assert (analysisStep (CmdOutput (Command (str "git")
            [str "diff"; str "--name-only"]))) as H1 by listing.
  assert (analysisStep (CmdOutput (Command (str "git")
            [str "ls-files"; str "--others"; str "--exclude-standard"]))) as H2 by listing.
  destruct (failure modified).
  { apply sat_ret. split; [by apply Forall_singleton | done]. }
  apply sat_perform_bind. intros untracked.
  destruct (failure untracked).
  { apply sat_ret. split; [by repeat (apply Forall_cons; split) | done]. }
  cbv zeta. destruct (_ && _).
  { apply sat_ret. split; [by repeat (apply Forall_cons; split) | done]. }
  eapply sat_bind.
  { instantiate (1 := λ written new,
      str "=== " `prefix_of` written ∧ Forall (λ ev, analysisStep ev.1) new).
    case_bool_decide.
    - eapply sat_mono; [apply excerpts_sat, fetch_diff|].
      intros written new [Hpre ?]. split; [|done]. etrans; [|exact Hpre].
      rewrite <- !app_assoc. by eexists.
    - apply sat_ret. split; [by eexists | done]. }
  intros written1 new1 [Hpre1 Hnew1].
  eapply sat_bind.
  { instantiate (1 := λ written new,
      str "=== " `prefix_of` written ∧ Forall (λ ev, analysisStep ev.1) new).
    case_bool_decide.
    - eapply sat_mono; [apply excerpts_sat, fetch_read|].
      intros written new [Hpre ?]. split; [|done]. etrans; [|exact Hpre].
      etrans; [exact Hpre1|]. rewrite <- !app_assoc. apply prefix_app_r. done.
    - by apply sat_ret. }
  intros written2 new2 [Hpre2 Hnew2]. apply sat_ret.
  rewrite app_nil_r. split; [|by split].
  apply Forall_cons; split; [done|]. apply Forall_cons; split; [done|].
  by apply Forall_app.
Qed.

Lemma infix_app_l (a b c : gostring) : infix a b → infix a (b ++ c).
Proof. intros (l & r & ->). exists l, (r ++ c). by rewrite <- !app_assoc. Qed.

Lemma infix_app_r (a b c : gostring) : infix a b → infix a (c ++ b).
Proof. intros (l & r & ->). exists (c ++ l), r. by rewrite <- !app_assoc. Qed.

Lemma Sprintf_names (heading names : gostring) :
  (∀ c, c ∈ heading → c ≠ "%"%char) →
  Sprintf (heading ++ str "%s" ++ [LF; LF]) [String_ names] = heading ++ names ++ [LF; LF].
Proof.
  intros Hheading. induction heading as [|c heading IH]; [reflexivity|].
  cbn [app Sprintf]. destruct (Ascii.eqb_spec c "%") as [->|_].
  - edestruct Hheading; [left|done].
  - rewrite IH; [done|]. intros c' Hc'. apply Hheading. by right.
Qed.

Lemma Split_empty : Split [] [LF] = [[]].
Proof. reflexivity. Qed.

Lemma analyzeStagedChanges_names :
  sat (analyzeStagedChanges env)
    (λ result new,
       result.2 = None →
       ∃ staged rest,
         new = (CmdOutput (Command (str "git") [str "diff"; str "--cached"; str "--name-only"]),
                staged) :: rest
         ∧ names staged result.1).
Proof.
  unfold analyzeStagedChanges. apply sat_perform_bind. intros r.
  destruct (failure r); [by apply sat_ret|].
  case_bool_decide; [by apply sat_ret|].
  cbv zeta. apply sat_perform_bind. intros r2.
  eapply sat_bind; [apply excerpts_sat, fetch_cached|].
  intros written new [[k ->] _]. apply sat_ret. intros _.
  eexists r, _. split; [reflexivity|]. intros file Hfile. cbn [fst].
  do 4 apply infix_app_l. apply infix_app_r.
  rewrite (Sprintf_names (str "Files: ")).
  - apply infix_app_r, infix_app_l. by apply Join_infix.
  - intros c Hc. repeat (apply elem_of_cons in Hc as [->|Hc]; [done|]).
    by apply elem_of_nil in Hc.
Qed.

Lemma analyzeUntrackedFiles_names :
  sat (analyzeUntrackedFiles env)
    (λ result new,
       result.2 = None →
       ∃ untracked rest,
         new = (CmdOutput (Command (str "git")
                             [str "ls-files"; str "--others"; str "--exclude-standard"]),
                untracked) :: rest
         ∧ names untracked result.1).
Proof.
  unfold analyzeUntrackedFiles. apply sat_perform_bind. intros r.
  destruct (failure r); [by apply sat_ret|].
  case_bool_decide; [by apply sat_ret|].
  cbv zeta.
  eapply sat_bind; [apply excerpts_sat, fetch_read|].
  intros written new [[k ->] _]. apply sat_ret. intros _.
  eexists r, _. split; [reflexivity|]. intros file Hfile. cbn [fst].
  do 2 apply infix_app_l. apply infix_app_r.
  rewrite (Sprintf_names []) by by intros c ?%elem_of_nil.
  apply infix_app_r, infix_app_l. by apply Join_infix.
Qed.

Lemma analyzeAllChanges_names :
  sat (analyzeAllChanges env)
    (λ result new,
       result.2 = None →
       ∃ modified untracked rest,
         new = (CmdOutput (Command (str "git") [str "diff"; str "--name-only"]), modified)
               :: (CmdOutput (Command (str "git")
                                [str "ls-files"; str "--others"; str "--exclude-standard"]),
                   untracked)
               :: rest
         ∧ names modified result.1 ∧ names untracked result.1).
Proof.
  unfold analyzeAllChanges. apply sat_perform_bind. intros modified.
  destruct (failure modified); [by apply sat_ret|].
  apply sat_perform_bind. intros untracked.
  destruct (failure untracked); [by apply sat_ret|].
  cbv zeta. destruct (_ && _); [by apply sat_ret|].
  eapply sat_bind.
  { instantiate (1 := λ written _, names modified written).
    case_bool_decide as Hm.
    - eapply sat_mono; [apply excerpts_sat, fetch_diff|].
      intros written new [[k ->] _] file Hfile.
      do 2 apply infix_app_l. apply infix_app_r.
      rewrite (Sprintf_names []) by by intros c ?%elem_of_nil.
      apply infix_app_r, infix_app_l. by apply Join_infix.
    - apply sat_ret. intros file Hfile.
      rewrite Hm, Split_empty in Hfile. apply list_elem_of_singleton in Hfile as ->.
      apply infix_nil. }
  intros written1 new1 Hnames1.
  eapply sat_bind.
  { instantiate (1 := λ written _, names modified written ∧ names untracked written).
    case_bool_decide as Hu.
    - eapply sat_mono; [apply excerpts_sat, fetch_read|].
      intros written new [[k ->] _]. split; intros file Hfile.
      + do 4 apply infix_app_l. by apply Hnames1.
      + do 2 apply infix_app_l. apply infix_app_r.
        rewrite (Sprintf_names []) by by intros c ?%elem_of_nil.
        apply infix_app_r, infix_app_l. by apply Join_infix.
    - apply sat_ret. split; [done|]. intros file Hfile.
      rewrite Hu, Split_empty in Hfile. apply list_elem_of_singleton in Hfile as ->.
      apply infix_nil. }
  intros written2 new2 [Hnames Hnames2]. apply sat_ret. intros _.
  eexists modified, untracked, _. split; [reflexivity|]. done.
Qed.

(** The calls of the per-file loop. *)
Lemma excerpts_calls (step : call → Prop) heading fetch files analysisInput :
  (∀ file, validateFilePath file = true → step (Stat file) ∧ step (fetch file)) →
  sat (excerpts env heading fetch files analysisInput)
    (λ _ new, ∀ ev, ev ∈ new → step ev.1).
Proof.
  intros Hstep. revert analysisInput.
  induction files as [|file files IH]; intros analysisInput; cbn [excerpts].
  - apply sat_ret. by intros ev ?%elem_of_nil.
  - destruct (validateFilePath file) eqn:Hvalid; cbn [negb]; [|apply IH].
    destruct (Hstep file Hvalid) as [Hstat Hfetch].
    apply sat_perform_bind. intros st. destruct (failure st).
    + eapply sat_mono; [apply IH|]. intros written new Hnew ev [->|Hev]%elem_of_cons;
        [exact Hstat | by apply Hnew].
    + apply sat_perform_bind. intros r.
      eapply sat_mono; [apply IH|].
      intros written new Hnew ev [->|[->|Hev]%elem_of_cons]%elem_of_cons;
        [exact Hstat | exact Hfetch | by apply Hnew].
Qed.

(** X10.  The calls of the analyses.  [analyzeStagedChanges] calls only
    the two listings [git diff --cached --name-only] and
    [git diff --cached --stat], [os.Stat], and
    [git diff --cached --unified=3 -- file]; [analyzeAllChanges] only
    the listings [git diff --name-only] and
    [git ls-files --others --exclude-standard], [os.Stat],
    [git diff --unified=3 file] and [os.ReadFile];
    [analyzeUntrackedFiles] only the listing of [git ls-files],
    [os.Stat] and [os.ReadFile]; the calls for one file are made only
    on a path that [validateFilePath] accepts.  So the analyses never
    panic, never run a command with [Run] and never print or read the
    terminal.  This is about the calls that are made, not about what
    git does with an argument: see [analyzeAllChanges_option_like_name]
    below. *)
Theorem analyses_calls :
  sat (analyzeStagedChanges env) (λ _ new, ∀ ev, ev ∈ new → stagedStep ev.1)
  ∧ sat (analyzeAllChanges env) (λ _ new, ∀ ev, ev ∈ new → allStep ev.1)
  ∧ sat (analyzeUntrackedFiles env) (λ _ new, ∀ ev, ev ∈ new → untrackedStep ev.1).
Proof.
  split; [|split].
  - unfold analyzeStagedChanges. apply sat_perform_bind. intros r.
    assert (∀ r' : reply, stagedStep
              (CmdOutput (Command (str "git") [str "diff"; str "--cached"; str "--name-only"]),
               r').1) as Hlist by (intros r'; by left).
    destruct (failure r).
    { apply sat_ret. intros ev Hev. apply list_elem_of_singleton in Hev as ->. apply Hlist. }
    case_bool_decide.
    { apply sat_ret. intros ev Hev. apply list_elem_of_singleton in Hev as ->. apply Hlist. }
    cbv zeta. apply sat_perform_bind. intros r2.
    eapply sat_bind.
    { apply (excerpts_calls stagedStep). intros file Hfile.
      split; right; right; exists file; split; [done | by left | done | by right]. }
    intros written new Hnew. apply sat_ret. rewrite app_nil_r.
    intros ev [->|[->|Hev]%elem_of_cons]%elem_of_cons;
      [apply Hlist | by right; left | by apply Hnew].
  - unfold analyzeAllChanges. apply sat_perform_bind. intros modified.
    assert (∀ r' : reply, allStep
              (CmdOutput (Command (str "git") [str "diff"; str "--name-only"]), r').1)
      as Hlist by (intros r'; by left).
    assert (∀ r' : reply, allStep
              (CmdOutput (Command (str "git")
                            [str "ls-files"; str "--others"; str "--exclude-standard"]), r').1)
      as Hlist' by (intros r'; by right; left).
    destruct (failure modified).
    { apply sat_ret. intros ev Hev. apply list_elem_of_singleton in Hev as ->. apply Hlist. }
    apply sat_perform_bind. intros untracked.
    assert (∀ ev : event,
      ev ∈ [(CmdOutput (Command (str "git") [str "diff"; str "--name-only"]), modified);
            (CmdOutput (Command (str "git")
                          [str "ls-files"; str "--others"; str "--exclude-standard"]),
             untracked)] → allStep ev.1) as Hfirst.
    { intros ev [->|Hev]%elem_of_cons; [apply Hlist|].
      apply list_elem_of_singleton in Hev as ->. apply Hlist'. }
    destruct (failure untracked); [by apply sat_ret|].
    cbv zeta. destruct (_ && _); [by apply sat_ret|].
    eapply sat_bind.
    { instantiate (1 := λ _ new, ∀ ev, ev ∈ new → allStep ev.1).
      case_bool_decide.
      - apply (excerpts_calls allStep). intros file Hfile.
        split; right; right; exists file; split; [done | by left | done | by right; left].
      - apply sat_ret. by intros ev ?%elem_of_nil. }
    intros written1 new1 Hnew1.
    eapply sat_bind.
    { instantiate (1 := λ _ new, ∀ ev, ev ∈ new → allStep ev.1).
      case_bool_decide.
      - apply (excerpts_calls allStep). intros file Hfile.
        split; right; right; exists file; split; [done | by left | done | by right; right].
      - apply sat_ret. by intros ev ?%elem_of_nil. }
    intros written2 new2 Hnew2. apply sat_ret. rewrite app_nil_r.
    intros ev [->|[->|[Hev|Hev]%elem_of_app]%elem_of_cons]%elem_of_cons;
      [apply Hlist | apply Hlist' | by apply Hnew1 | by apply Hnew2].
  - unfold analyzeUntrackedFiles. apply sat_perform_bind. intros r.
    assert (∀ r' : reply, untrackedStep
              (CmdOutput (Command (str "git")
                            [str "ls-files"; str "--others"; str "--exclude-standard"]), r').1)
      as Hlist by (intros r'; by left).
    destruct (failure r).
    { apply sat_ret. intros ev Hev. apply list_elem_of_singleton in Hev as ->. apply Hlist. }
    case_bool_decide.
    { apply sat_ret. intros ev Hev. apply list_elem_of_singleton in Hev as ->. apply Hlist. }
    cbv zeta.
    eapply sat_bind.
    { apply (excerpts_calls untrackedStep). intros file Hfile.
      split; right; exists file; split; [done | by left | done | by right]. }
    intros written new Hnew. apply sat_ret. rewrite app_nil_r.
    intros ev [->|Hev]%elem_of_cons; [apply Hlist | by apply Hnew].
Qed.

(** A name that begins with a dash is accepted by [validateFilePath],
    and [analyzeAllChanges] passes it to [git diff] with no [--] before
    it, where git reads it as an option. *)
Example analyzeAllChanges_option_like_name :
  let run := analyzeAllChanges (listingWorld (str "--output=report.txt")) [] in
  run.2.*1 !! 3
  = Some (CmdOutput (Command (str "git")
                       [str "diff"; str "--unified=3"; str "--output=report.txt"])).
Proof. reflexivity. Qed.

(** X11.  The text of an analysis: when one of the three analyses
    succeeds, its text begins with the heading [=== ], so it is never
    empty (the check for an empty analysis in [generateCommitMessage]
    cannot fire); when it fails, its text is empty. *)
Theorem analyses_text :
  let texts (analyze : M (gostring * option error)) :=
    sat analyze
      (λ result _,
         match result.2 with
         | None => str "=== " `prefix_of` result.1 ∧ result.1 ≠ []
         | Some _ => result.1 = []
         end) in
  texts (analyzeStagedChanges env)
  ∧ texts (analyzeAllChanges env)
  ∧ texts (analyzeUntrackedFiles env).
Proof.
  intros texts. unfold texts.
  split; [|split];
    (eapply sat_mono;
     [first [apply analyzeStagedChanges_sat | apply analyzeAllChanges_sat
            | apply analyzeUntrackedFiles_sat]|]);
    intros [text [err|]] new (_ & Hok & Hfail); cbn [fst snd] in *.
  1,3,5: by apply Hfail.
  all: split; [by apply Hok|]; intros ->; by destruct (Hok eq_refl) as [? [=]].
Qed.


(** X13.  Every file of a listing is named in the text of the
    analysis, also a file whose path [validateFilePath] refuses: only
    its excerpt is left out. *)
Theorem analyses_name_every_file :
  sat (analyzeStagedChanges env)
    (λ result new,
       result.2 = None →
       ∃ staged rest,
         new = (CmdOutput (Command (str "git") [str "diff"; str "--cached"; str "--name-only"]),
                staged) :: rest
         ∧ names staged result.1)
  ∧ sat (analyzeAllChanges env)
      (λ result new,
         result.2 = None →
         ∃ modified untracked rest,
           new = (CmdOutput (Command (str "git") [str "diff"; str "--name-only"]), modified)
                 :: (CmdOutput (Command (str "git")
                                  [str "ls-files"; str "--others"; str "--exclude-standard"]),
                     untracked)
                 :: rest
           ∧ names modified result.1 ∧ names untracked result.1)
  ∧ sat (analyzeUntrackedFiles env)
      (λ result new,
         result.2 = None →
         ∃ untracked rest,
           new = (CmdOutput (Command (str "git")
                               [str "ls-files"; str "--others"; str "--exclude-standard"]),
                  untracked) :: rest
           ∧ names untracked result.1).
Proof.
  split; [apply analyzeStagedChanges_names|].
  split; [apply analyzeAllChanges_names | apply analyzeUntrackedFiles_names].
Qed.

End ProgramFacts.

(** * The run of the program *)

Section RunFacts.
Import strings fmt regexp commitrules main.

Variable env : list event → call → reply.
Variable ToLower : gostring → gostring.
Variable aliasEnv : gostring → list gostring.

Lemma isGitRepo_sat :
  sat (isGitRepo env)
    (λ repo new, ∃ r0, new = [(revParse, r0)] ∧ repo = bool_decide (failure r0 = None)).
Proof.
  unfold isGitRepo. apply sat_perform_bind. intros r0. apply sat_ret. by exists r0.
Qed.

Lemma providerCmd_alias order provider analysisInput :
  provider ∈ [str "claudex2"; str "claudex3"] →
  providerCmd aliasEnv order provider analysisInput
  = {| Path := str "claude"; Args := [str "claude"];
       Env := aliasEnv provider; Stdin := GetPrompt order analysisInput |}.
Proof. intros H. unfold providerCmd. by rewrite bool_decide_eq_true_2. Qed.

Lemma providerCmd_other order provider analysisInput :
  provider ≠ str "claudex2" → provider ≠ str "claudex3" →
  providerCmd aliasEnv order provider analysisInput
  = {| Path := provider; Args := [provider];
       Env := []; Stdin := GetPrompt order analysisInput |}.
Proof.
  intros H2 H3. unfold providerCmd. rewrite bool_decide_eq_false_2; [done|].
  intros [->|[->|?%elem_of_nil]%elem_of_cons]%elem_of_cons; done.
Qed.

Lemma ErrorfWrap_call (provider : gostring) err :
  ErrorfWrap (str "failed to call %s API: %w") [inl (String_ provider); inr err]
  = errorString (str "failed to call " ++ provider ++ str " API: " ++ Error err).
Proof.
  unfold ErrorfWrap, Errorf. f_equal.
  rewrite <- (app_nil_r (Error err)). reflexivity.
Qed.

Lemma ErrorfWrap_generate err :
  ErrorfWrap (str "failed to generate commit message: %w") [inr err]
  = errorString (str "failed to generate commit message: " ++ Error err).
Proof.
  unfold ErrorfWrap, Errorf. f_equal.
  rewrite <- (app_nil_r (Error err)). reflexivity.
Qed.

Lemma ErrorfWrap_mode (mode : gostring) :
  ErrorfWrap (str "%w: unknown mode: %s") [inr ErrNoChangesFound; inl (String_ mode)]
  = errorString (str "no changes found to analyze: unknown mode: " ++ mode).
Proof.
  unfold ErrorfWrap, Errorf. f_equal.
  rewrite <- (app_nil_r mode) at 2. reflexivity.
Qed.

Lemma Sprintf_warning_error (text : gostring) :
  Sprintf (str "Warning: %s" ++ [LF]) [String_ text] = str "Warning: " ++ text ++ [LF].
Proof. reflexivity. Qed.

Lemma Sprintf_shown (commitMessage : gostring) :
  Sprintf (str "Generated commit message:" ++ LF :: DQUOTE :: str "%s" ++ DQUOTE :: [LF; LF])
    [String_ commitMessage]
  = shownMessage commitMessage.
Proof. reflexivity. Qed.

(** The call of the provider: one command, given the prompt. *)
Lemma callAIAPI_sat order analysisInput provider :
  sat (callAIAPI env aliasEnv order analysisInput provider)
    (λ generated new,
       ∃ r, new = [(CmdOutput (providerCmd aliasEnv order provider analysisInput), r)]
            ∧ generated =
                match failure r with
                | Some err =>
                    ([], Some (errorString (str "failed to call " ++ provider
                                              ++ str " API: " ++ Error err)))
                | None => (TrimSpace (data r), None)
                end).
Proof.
  unfold callAIAPI. cbv zeta.
  assert ((if bool_decide (provider = str "claudex2") then
             {| Path := str "claude"; Args := [str "claude"];
                Env := aliasEnv (str "claudex2"); Stdin := [] |}
           else if bool_decide (provider = str "claudex3") then
             {| Path := str "claude"; Args := [str "claude"];
                Env := aliasEnv (str "claudex3"); Stdin := [] |}
           else Command provider [])
          = {| Path := Path (providerCmd aliasEnv order provider analysisInput);
               Args := Args (providerCmd aliasEnv order provider analysisInput);
               Env := Env (providerCmd aliasEnv order provider analysisInput);
               Stdin := [] |}) as ->.
  { case_bool_decide as H2; [|case_bool_decide as H3].
    - subst. rewrite providerCmd_alias by (by apply (bool_decide_unpack _)). done.
    - subst. rewrite providerCmd_alias by (by apply (bool_decide_unpack _)). done.
    - by rewrite providerCmd_other. }
  cbn [Path Args Env].
  change {| Path := Path (providerCmd aliasEnv order provider analysisInput);
            Args := Args (providerCmd aliasEnv order provider analysisInput);
            Env := Env (providerCmd aliasEnv order provider analysisInput);
            Stdin := GetPrompt order analysisInput |}
    with (providerCmd aliasEnv order provider analysisInput).
  apply sat_perform_bind. intros r. destruct (failure r) as [err|] eqn:Hr.
  - apply sat_ret. exists r. rewrite Hr, ErrorfWrap_call. done.
  - apply sat_ret. exists r. by rewrite Hr.
Qed.

Lemma executeCommit_sat mode commitMessage :
  mode ∈ modes →
  sat (executeCommit env mode commitMessage) (commits mode commitMessage).
Proof.
  intros Hmode. unfold executeCommit. cbv zeta.
  case_bool_decide as Hs.
  - apply sat_perform_bind. intros rc. apply sat_ret. by constructor.
  - assert (mode ∈ [str "all"; str "untracked"]) as Hau.
    { apply elem_of_cons in Hmode as [->|Hmode]; [done | exact Hmode]. }
    rewrite (orb_true_intro (bool_decide (mode = str "all")) (bool_decide (mode = str "untracked"))).
    2:{ apply elem_of_cons in Hau as [->|Hau]; [by left|].
        apply list_elem_of_singleton in Hau as ->. by right. }
    apply sat_perform_bind. intros ra. destruct (failure ra) as [err|] eqn:Hra.
    + apply sat_ret. by constructor.
    + apply sat_perform_bind. intros rc. apply sat_ret. by constructor.
Qed.

(** Outside the three modes [executeCommit] runs nothing and panics. *)
Lemma executeCommit_panics mode commitMessage h :
  mode ∉ modes → executeCommit env mode commitMessage h = (None, h).
Proof.
  intros Hmode. unfold executeCommit. cbv zeta.
  rewrite !bool_decide_eq_false_2; [done|..];
    intros ->; apply Hmode; apply (bool_decide_unpack _); by vm_compute.
Qed.

(** The analysis that the mode selects. *)
Lemma analyze_mode mode :
  match
    (if bool_decide (mode = str "staged") then Some (analyzeStagedChanges env)
     else if bool_decide (mode = str "all") then Some (analyzeAllChanges env)
     else if bool_decide (mode = str "untracked") then Some (analyzeUntrackedFiles env)
     else None)
  with
  | Some analyze => mode ∈ modes ∧ sat analyze analysisResult
  | None => mode ∉ modes
  end.
Proof.
  repeat case_bool_decide; subst.
  - split; [by apply (bool_decide_unpack _) | apply analyzeStagedChanges_sat].
  - split; [by apply (bool_decide_unpack _) | apply analyzeAllChanges_sat].
  - split; [by apply (bool_decide_unpack _) | apply analyzeUntrackedFiles_sat].
  - intros [->|[->|[->|?%elem_of_nil]%elem_of_cons]%elem_of_cons]%elem_of_cons; done.
Qed.

Lemma warning_sat (validation : result) :
  sat (if bool_decide (stdout validation = []) then ret tt
       else perform env (Print (stdout validation));; ret tt)
    (λ _ warning,
       if bool_decide (stdout validation = []) then warning = []
       else ∃ p, warning = [(Print (stdout validation), p)]).
Proof.
  case_bool_decide.
  - by apply sat_ret.
  - apply sat_perform_bind. intros p. apply sat_ret. by exists p.
Qed.

Lemma errors_sat (validation : result) :
  sat (match err validation with
       | Some err =>
           perform env (Print (Sprintf (str "Warning: %s" ++ [LF]) [String_ (Error err)]));;
           ret tt
       | None => ret tt
       end)
    (λ _ errors,
       match err validation with
       | None => errors = []
       | Some err => ∃ p, errors = [(Print (str "Warning: " ++ Error err ++ [LF]), p)]
       end).
Proof.
  destruct (err validation) as [e|].
  - apply sat_perform_bind. intros p. apply sat_ret. by exists p.
  - by apply sat_ret.
Qed.

(** Every run of [generateCommitMessage] ends, in one of seven ways. *)
Lemma generateCommitMessage_sat promptOrder typesOrder mode providerFlag :
  sat (generateCommitMessage env ToLower aliasEnv promptOrder typesOrder mode providerFlag)
    (outcome ToLower aliasEnv promptOrder typesOrder mode providerFlag).
Proof.
  unfold generateCommitMessage. cbv zeta.
  eapply sat_bind; [apply isGitRepo_sat|].
  intros repo new1 (r0 & -> & ->). case_bool_decide as Hr0; cbn [negb].
  2:{ apply sat_ret. by constructor. }
  pose proof (analyze_mode mode) as Hmode. revert Hmode.
  destruct (if bool_decide (mode = str "staged") then _ else _) as [analyze|].
  2:{ intros Hmode. apply sat_ret. rewrite ErrorfWrap_mode. by constructor. }
  intros [Hmode Hanalyze].
  eapply sat_bind; [exact Hanalyze|].
  intros [analysisInput [err|]] steps (Hsteps & Hok & Hfail); cbn [fst snd] in *.
  { apply sat_ret. rewrite app_nil_r. by constructor. }
  specialize (Hok eq_refl). clear Hfail.
  rewrite bool_decide_eq_false_2.
  2:{ intros ->. by destruct Hok as [? [=]]. }
  fold (providerOf providerFlag).
  eapply sat_bind; [apply callAIAPI_sat|].
  intros generated new2 (r & -> & ->).
  destruct (failure r) as [err|] eqn:Hr; cbn [fst snd].
  { apply sat_ret. rewrite ErrorfWrap_generate, app_nil_r. cbn [Error].
    change ([(revParse, r0)] ++ steps ++ ?l) with ((revParse, r0) :: steps ++ l).
    by constructor. }
  rewrite CleanCommitMessage_cases.
  set (commitMessage := if decide _ then _ else _).
  assert (CleanCommitMessage (TrimSpace (data r)) = Some commitMessage) as Hclean
    by apply CleanCommitMessage_cases.
  eapply sat_bind; [apply warning_sat|]. intros u1 warning Hwarning.
  eapply sat_bind; [apply errors_sat|]. intros u2 errors Herrors.
  cbv beta in Hwarning, Herrors.
  assert (notes (ValidateCommitMessage typesOrder commitMessage) (warning ++ errors)) as Hns.
  { exists warning, errors. split; [reflexivity|]. split; [exact Hwarning | exact Herrors]. }
  set (ns := warning ++ errors) in *.
  rewrite Sprintf_shown.
  apply sat_perform_bind. intros p1.
  apply sat_perform_bind. intros p2.
  apply sat_perform_bind. intros answer.
  set (asked := (revParse, r0) :: steps
         ++ (CmdOutput (providerCmd aliasEnv promptOrder (providerOf providerFlag) analysisInput), r) :: ns
         ++ [(Print (shownMessage commitMessage), p1); (Print question, p2); (Scanln, answer)]).
  assert (offered aliasEnv promptOrder typesOrder mode providerFlag commitMessage answer asked) as Hasked.
  { constructor; assumption. }
  assert (∀ result new new',
    new = new' →
    outcome ToLower aliasEnv promptOrder typesOrder mode providerFlag result new →
    outcome ToLower aliasEnv promptOrder typesOrder mode providerFlag result new') as Hshape
    by (intros ??? -> Hout; exact Hout).
  destruct (_ || _) eqn:Hyes.
  - assert (confirmed ToLower answer) as Hconf.
    { unfold confirmed. cbv zeta.
      apply orb_prop in Hyes as [H|H]; apply bool_decide_eq_true_1 in H;
        [left | right]; exact H. }
    eapply sat_bind; [apply executeCommit_sat; exact Hmode|].
    intros [e|] runs Hruns.
    + apply sat_ret. eapply Hshape; cycle 1; [eapply CommitFailed; eassumption|].
      unfold asked, ns.
      repeat first [progress cbn [app] | rewrite <- app_assoc | rewrite app_nil_r].
      reflexivity.
    + apply sat_perform_bind. intros p. apply sat_ret.
      eapply Hshape; cycle 1; [eapply (Committed _ _ _ _ _ _ _ _ _ _ p); eassumption|].
      unfold asked, ns.
      repeat first [progress cbn [app] | rewrite <- app_assoc | rewrite app_nil_r].
      reflexivity.
  - assert (¬ confirmed ToLower answer) as Hconf.
    { unfold confirmed. cbv zeta.
      apply orb_false_elim in Hyes as [H1 H2].
      apply bool_decide_eq_false_1 in H1, H2. intros [H|H]; [exact (H1 H) | exact (H2 H)]. }
    apply sat_perform_bind. intros p. apply sat_ret.
    eapply Hshape; cycle 1; [eapply (Cancelled _ _ _ _ _ _ _ _ _ p); eassumption|].
    unfold asked, ns.
      repeat first [progress cbn [app] | rewrite <- app_assoc | rewrite app_nil_r].
      reflexivity.
Qed.

Lemma analysisStep_inv c :
  analysisStep c →
  (∃ cmd, c = CmdOutput cmd ∧ Path cmd = str "git" ∧ Stdin cmd = [] ∧ Env cmd = [])
  ∨ ∃ file, validateFilePath file = true ∧ (c = Stat file ∨ c = ReadFile file).
Proof.
  intros [(cmd & Hcmd & ->)|(file & Hfile & Hc)].
  - left. exists cmd. split; [done|]. unfold listings in Hcmd.
    repeat (apply elem_of_cons in Hcmd as [->|Hcmd]; [done|]).
    by apply elem_of_nil in Hcmd.
  - repeat (apply elem_of_cons in Hc as [->|Hc]; [eauto 8|]).
    by apply elem_of_nil in Hc.
Qed.

Lemma quiet_inv promptOrder providerFlag c :
  quiet aliasEnv promptOrder providerFlag c → (∀ cmd, c ≠ CmdRun cmd) ∧ c ≠ Scanln.
Proof.
  intros [->|[Hc|[[? ->]|[? ->]]]]; [done| |done..].
  apply analysisStep_inv in Hc as [(? & -> & _)|(? & _ & [->| ->])]; done.
Qed.

Lemma notes_prints validation ns ev :
  notes validation ns → ev ∈ ns → ∃ text, ev.1 = Print text.
Proof.
  intros (warning & errors & -> & Hw & He) [Hin|Hin]%elem_of_app.
  - destruct (bool_decide _); [subst; by apply elem_of_nil in Hin|].
    destruct Hw as [p ->]. apply list_elem_of_singleton in Hin as ->. by eexists.
  - destruct (err validation); [|subst; by apply elem_of_nil in Hin].
    destruct He as [p ->]. apply list_elem_of_singleton in Hin as ->. by eexists.
Qed.

(** The run up to the answer: nothing is run, and the message shown is
    the cleaned output of the provider. *)
Lemma offered_inv promptOrder typesOrder mode providerFlag commitMessage answer asked :
  offered aliasEnv promptOrder typesOrder mode providerFlag commitMessage answer asked →
  ∃ before,
    asked = before ++ [(Scanln, answer)]
    ∧ (∀ ev, ev ∈ before → quiet aliasEnv promptOrder providerFlag ev.1)
    ∧ (∃ p, (Print (shownMessage commitMessage), p) ∈ before)
    ∧ (∃ analysisInput r,
         (CmdOutput (providerCmd aliasEnv promptOrder (providerOf providerFlag) analysisInput), r)
           ∈ before
         ∧ CleanCommitMessage (TrimSpace (data r)) = Some commitMessage)
    ∧ match err (ValidateCommitMessage typesOrder commitMessage) with
      | Some err => ∃ p, (Print (str "Warning: " ++ Error err ++ [LF]), p) ∈ before
      | None => True
      end.
Proof.
  intros [r0 steps analysisInput r ns p1 p2 Hr0 Hmode Hsteps Hpre Hr Hclean Hns].
  exists ((revParse, r0) :: steps
            ++ (CmdOutput (providerCmd aliasEnv promptOrder (providerOf providerFlag) analysisInput), r)
            :: ns ++ [(Print (shownMessage commitMessage), p1); (Print question, p2)]).
  split; [|split; [|split; [|split]]].
  - cbn [app]. f_equal. rewrite <- app_assoc. cbn [app]. do 2 f_equal.
    by rewrite <- app_assoc.
  - intros ev Hev. rewrite elem_of_cons, elem_of_app, elem_of_cons, elem_of_app in Hev.
    destruct Hev as [->|[Hev|[->|[Hev|Hev]]]].
    + by left.
    + right; left. by eapply Forall_forall in Hsteps.
    + right; right; left. exists analysisInput. reflexivity.
    + right; right; right. eapply notes_prints; eassumption.
    + right; right; right.
      apply elem_of_cons in Hev as [->|Hev]; [by eexists|].
      apply list_elem_of_singleton in Hev as ->. by eexists.
  - exists p1. rewrite elem_of_cons, elem_of_app, elem_of_cons, elem_of_app.
    right; right; right; right. apply elem_of_cons. by left.
  - exists analysisInput, r. split; [|done].
    rewrite elem_of_cons, elem_of_app, elem_of_cons. right; right; by left.
  - destruct Hns as (warning & errors & -> & _ & He).
    destruct (err _) as [e|]; [|done]. destruct He as [p ->]. exists p.
    rewrite elem_of_cons, elem_of_app, elem_of_cons, !elem_of_app.
    right; right; right; left; right. by apply list_elem_of_singleton.
Qed.

Lemma commits_inv mode commitMessage result runs ev :
  commits mode commitMessage result runs → ev ∈ runs →
  ev.1 = gitCommit commitMessage ∨ ev.1 = gitAdd ∧ mode ≠ str "staged".
Proof.
  assert (∀ m : gostring, m ∈ [str "all"; str "untracked"] → m ≠ str "staged") as Hne.
  { intros m [->|[->|?%elem_of_nil]%elem_of_cons]%elem_of_cons; done. }
  intros [rc Hs|ra e Hau Hra|ra rc Hau Hra] Hin.
  - apply list_elem_of_singleton in Hin as ->. by left.
  - apply list_elem_of_singleton in Hin as ->. right. auto.
  - apply elem_of_cons in Hin as [->|Hin]; [right; auto|].
    apply list_elem_of_singleton in Hin as ->. by left.
Qed.

(** [executeCommit] returns nil only after the commit. *)
Lemma commits_done mode commitMessage result runs :
  commits mode commitMessage result runs →
  ∃ rc, (gitCommit commitMessage, rc) ∈ runs
        ∨ mode ≠ str "staged" ∧ (gitAdd, rc) ∈ runs ∧ failure rc ≠ None.
Proof.
  assert (∀ m : gostring, m ∈ [str "all"; str "untracked"] → m ≠ str "staged") as Hne.
  { intros m [->|[->|?%elem_of_nil]%elem_of_cons]%elem_of_cons; done. }
  intros [rc Hs|ra e Hau Hra|ra rc Hau Hra].
  - exists rc. left. by apply list_elem_of_singleton.
  - exists ra. right. split; [auto|]. split; [by apply list_elem_of_singleton|].
    by rewrite Hra.
  - exists rc. left. apply elem_of_cons. right. by apply list_elem_of_singleton.
Qed.

(** Where a command is run in a run of the program. *)
Lemma outcome_run promptOrder typesOrder mode providerFlag result new cmd rc :
  outcome ToLower aliasEnv promptOrder typesOrder mode providerFlag result new →
  (CmdRun cmd, rc) ∈ new →
  ∃ commitMessage answer asked after runs,
    new = asked ++ after
    ∧ offered aliasEnv promptOrder typesOrder mode providerFlag commitMessage answer asked
    ∧ confirmed ToLower answer
    ∧ commits mode commitMessage result runs
    ∧ (CmdRun cmd, rc) ∈ runs.
Proof.
  assert (∀ steps : list event,
    Forall (λ ev, analysisStep ev.1) steps → (CmdRun cmd, rc) ∉ steps) as Hsteps.
  { intros steps Hall Hin. eapply Forall_forall in Hall; [|exact Hin].
    apply analysisStep_inv in Hall as [(? & ? & _)|(? & _ & [?|?])]; done. }
  assert (∀ commitMessage answer asked,
    offered aliasEnv promptOrder typesOrder mode providerFlag commitMessage answer asked →
    (CmdRun cmd, rc) ∉ asked) as Hasked.
  { intros commitMessage answer asked (before & -> & Hquiet & _)%offered_inv
      [Hin|Hin]%elem_of_app.
    - apply Hquiet, quiet_inv in Hin as [Hin _]. by eapply Hin.
    - by apply list_elem_of_singleton in Hin. }
  intros [r0 Hr0|r0 Hr0 Hmode|r0 steps err Hr0 Hmode Hall
          |r0 steps analysisInput r err Hr0 Hmode Hall Hpre Hr
          |commitMessage answer asked p Hoff Hno
          |commitMessage answer asked runs err Hoff Hyes Hruns
          |commitMessage answer asked runs p Hoff Hyes Hruns] Hin.
  - by apply list_elem_of_singleton in Hin.
  - by apply list_elem_of_singleton in Hin.
  - apply elem_of_cons in Hin as [?|Hin]; [done|]. by apply Hsteps in Hin.
  - apply elem_of_cons in Hin as [?|[Hin|Hin]%elem_of_app]; [done| |].
    + by apply Hsteps in Hin.
    + by apply list_elem_of_singleton in Hin.
  - apply elem_of_app in Hin as [Hin|Hin]; [by eapply Hasked in Hin|].
    by apply list_elem_of_singleton in Hin.
  - apply elem_of_app in Hin as [Hin|Hin]; [by eapply Hasked in Hin|].
    by exists commitMessage, answer, asked, runs, runs.
  - apply elem_of_app in Hin as [Hin|[Hin|Hin]%elem_of_app];
      [by eapply Hasked in Hin| |by apply list_elem_of_singleton in Hin].
    by eexists commitMessage, answer, asked, _, runs.
Qed.

(** X14.  Nothing is committed or staged without the consent of the
    user: in every run of [generateCommitMessage], a command run with
    [Run] ([git add] or [git commit]) comes after an answer read from
    the terminal that is [y] or [yes] once lowered, and no command is
    run before that answer. *)
Theorem commit_needs_confirmation promptOrder typesOrder mode providerFlag :
  sat (generateCommitMessage env ToLower aliasEnv promptOrder typesOrder mode providerFlag)
    (λ _ new,
       ∀ cmd rc, (CmdRun cmd, rc) ∈ new →
         ∃ before answer after,
           new = before ++ (Scanln, answer) :: after
           ∧ confirmed ToLower answer
           ∧ ∀ ev, ev ∈ before → ∀ cmd', ev.1 ≠ CmdRun cmd').
Proof.
  eapply sat_mono; [apply generateCommitMessage_sat|].
  intros result new Hout cmd rc Hin.
  destruct (outcome_run _ _ _ _ _ _ _ _ Hout Hin)
    as (commitMessage & answer & asked & after & runs & -> & Hoff & Hyes & _).
  apply offered_inv in Hoff as (before & -> & Hquiet & _).
  exists before, answer, after. split; [by rewrite <- app_assoc|]. split; [done|].
  intros ev Hev. by apply Hquiet, quiet_inv in Hev as [Hev _].
Qed.


(** X16.  [executeCommit] called with a mode other than [staged], [all]
    and [untracked] runs nothing and panics (it calls [Run] on the nil
    command); [generateCommitMessage] never panics, whatever the mode,
    the provider and the answers of the world: every run returns, and
    only adds events to the history. *)
Theorem executeCommit_panic_unreachable :
  (∀ mode commitMessage h, mode ∉ modes → executeCommit env mode commitMessage h = (None, h))
  ∧ ∀ promptOrder typesOrder mode providerFlag h,
      ∃ result new,
        generateCommitMessage env ToLower aliasEnv promptOrder typesOrder mode providerFlag h
        = (Some result, h ++ new).
Proof.
  split.
  - intros mode commitMessage h Hmode. by apply executeCommit_panics.
  - intros promptOrder typesOrder mode providerFlag h.
    destruct (generateCommitMessage_sat promptOrder typesOrder mode providerFlag h) as (result & new & Hrun & _).
    by exists result, new.
Qed.

(** X17.  The validator does not stand in the way of a commit: when the
    user confirms, the message shown is committed (unless [git add .]
    failed first), whatever [ValidateCommitMessage] said about it; a
    message that the validator refuses is preceded by a line
    [Warning: ] with the text of the error, and nothing more. *)
Theorem confirmed_message_is_committed promptOrder typesOrder mode providerFlag :
  sat (generateCommitMessage env ToLower aliasEnv promptOrder typesOrder mode providerFlag)
    (λ _ new,
       ∀ answer, (Scanln, answer) ∈ new → confirmed ToLower answer →
         ∃ commitMessage p rc,
           (Print (shownMessage commitMessage), p) ∈ new
           ∧ ((gitCommit commitMessage, rc) ∈ new
              ∨ mode ≠ str "staged" ∧ (gitAdd, rc) ∈ new ∧ failure rc ≠ None)
           ∧ match err (ValidateCommitMessage typesOrder commitMessage) with
             | Some err => ∃ p', (Print (str "Warning: " ++ Error err ++ [LF]), p') ∈ new
             | None => True
             end).
Proof.
  eapply sat_mono; [apply generateCommitMessage_sat|].
  intros result new Hout answer Hin Hyes.
  assert (∀ steps : list event,
    Forall (λ ev, analysisStep ev.1) steps → (Scanln, answer) ∉ steps) as Hsteps.
  { intros steps Hall Hin'. eapply Forall_forall in Hall; [|exact Hin'].
    apply analysisStep_inv in Hall as [(? & ? & _)|(? & _ & [?|?])]; done. }
  assert (∀ commitMessage answer' asked,
    offered aliasEnv promptOrder typesOrder mode providerFlag commitMessage answer' asked →
    (Scanln, answer) ∈ asked → answer' = answer) as Hasked.
  { intros commitMessage answer' asked (before & -> & Hquiet & _)%offered_inv
      [Hin'|Hin']%elem_of_app.
    - by apply Hquiet, quiet_inv in Hin' as [_ Hin'].
    - apply list_elem_of_singleton in Hin'. congruence. }
  assert (∀ commitMessage answer' asked result' runs after,
    offered aliasEnv promptOrder typesOrder mode providerFlag commitMessage answer' asked →
    commits mode commitMessage result' runs →
    ∃ commitMessage p rc,
      (Print (shownMessage commitMessage), p) ∈ asked ++ runs ++ after
      ∧ ((gitCommit commitMessage, rc) ∈ asked ++ runs ++ after
         ∨ mode ≠ str "staged" ∧ (gitAdd, rc) ∈ asked ++ runs ++ after ∧ failure rc ≠ None)
      ∧ match err (ValidateCommitMessage typesOrder commitMessage) with
        | Some err =>
            ∃ p', (Print (str "Warning: " ++ Error err ++ [LF]), p') ∈ asked ++ runs ++ after
        | None => True
        end) as Hdone.
  { intros commitMessage answer' asked result' runs after Hoff Hc.
    apply offered_inv in Hoff as (before & -> & _ & [p Hp] & _ & Hwarn).
    destruct (commits_done _ _ _ _ Hc) as [rc Hrc].
    exists commitMessage, p, rc. split; [|split].
    - rewrite !elem_of_app. auto.
    - destruct Hrc as [Hrc|(? & Hrc & ?)]; [left | right; split; [done|split; [|done]]];
        rewrite !elem_of_app; auto.
    - destruct (err _); [|done]. destruct Hwarn as [p' Hp']. exists p'.
      rewrite !elem_of_app. auto. }
  destruct Hout as [r0 Hr0|r0 Hr0 Hmode|r0 steps err Hr0 Hmode Hall
          |r0 steps analysisInput r err Hr0 Hmode Hall Hpre Hr
          |commitMessage answer' asked p Hoff Hno
          |commitMessage answer' asked runs err Hoff Hyes' Hc
          |commitMessage answer' asked runs p Hoff Hyes' Hc].
  - by apply list_elem_of_singleton in Hin.
  - by apply list_elem_of_singleton in Hin.
  - apply elem_of_cons in Hin as [?|Hin]; [done|]. by apply Hsteps in Hin.
  - apply elem_of_cons in Hin as [?|[Hin|Hin]%elem_of_app]; [done| |].
    + by apply Hsteps in Hin.
    + by apply list_elem_of_singleton in Hin.
  - apply elem_of_app in Hin as [Hin|Hin].
    + apply (Hasked _ _ _ Hoff) in Hin as ->. done.
    + by apply list_elem_of_singleton in Hin.
  - rewrite <- (app_nil_r runs). by eapply Hdone.
  - by eapply Hdone.
Qed.


(** The notes are warnings. *)
Lemma notes_warnings order message ns ev :
  notes (ValidateCommitMessage order message) ns → ev ∈ ns →
  ∃ text, ev.1 = Print (str "Warning: " ++ text).
Proof.
  intros (warning & errors & -> & Hw & He) [Hin|Hin]%elem_of_app.
  - revert Hw. rewrite ValidateCommitMessage_by_cases. cbv zeta.
    destruct (decide _); [destruct (CommitRules !! _); [destruct (72 <? _);
      [|destruct (50 <? _)]|]|]; cbn [stdout];
      try (intros ->; by apply elem_of_nil in Hin).
    intros [p ->]. apply list_elem_of_singleton in Hin as ->.
    eexists. unfold LengthWarning. reflexivity.
  - destruct (err _) as [e|]; [|subst; by apply elem_of_nil in Hin].
    destruct He as [p ->]. apply list_elem_of_singleton in Hin as ->.
    eexists. reflexivity.
Qed.

(** A print before the answer of the user is a warning, the message
    or the question. *)
Lemma offered_prints promptOrder typesOrder mode providerFlag commitMessage answer asked
    text p :
  offered aliasEnv promptOrder typesOrder mode providerFlag commitMessage answer asked →
  (Print text, p) ∈ asked →
  (∃ text', text = str "Warning: " ++ text')
  ∨ text = shownMessage commitMessage ∨ text = question.
Proof.
  intros [r0 steps analysisInput r ns p1 p2 Hr0 Hmode Hall Hpre Hr Hclean Hns] Hin.
  rewrite elem_of_cons, elem_of_app, elem_of_cons, elem_of_app in Hin.
  destruct Hin as [?|[Hin|[?|[Hin|Hin]]]]; [done| |done| |].
  - eapply Forall_forall in Hall; [|exact Hin].
    apply analysisStep_inv in Hall as [(? & ? & _)|(? & _ & [?|?])]; done.
  - destruct (notes_warnings _ _ _ _ Hns Hin) as [text' [= ->]]. left. by exists text'.
  - apply elem_of_cons in Hin as [[= -> _]|Hin]; [by right; left|].
    apply elem_of_cons in Hin as [[= -> _]|Hin]; [by right; right|].
    by apply list_elem_of_singleton in Hin.
Qed.

(** [executeCommit] returns nil only when [git commit] succeeded. *)
Lemma commits_succeeded mode commitMessage runs :
  commits mode commitMessage None runs →
  ∃ rc, (gitCommit commitMessage, rc) ∈ runs ∧ failure rc = None.
Proof.
  intros Hc. inversion Hc as [rc Hs Hrc|ra e Hau Hra|ra rc Hau Hra Hrc]; subst.
  - exists rc. split; [by apply list_elem_of_singleton | done].
  - exists rc. split; [|done]. apply elem_of_cons. right. by apply list_elem_of_singleton.
Qed.

(** X19.  The report of success is truthful: [generateCommitMessage]
    prints [Committed successfully!] only when [git commit] was run with
    the message shown and returned no error, and it then returns nil. *)
Theorem success_is_reported_truthfully promptOrder typesOrder mode providerFlag :
  sat (generateCommitMessage env ToLower aliasEnv promptOrder typesOrder mode providerFlag)
    (λ result new,
       ∀ p, (Print (str "Committed successfully!" ++ [LF]), p) ∈ new →
         result = None
         ∧ ∃ commitMessage p' rc,
             (Print (shownMessage commitMessage), p') ∈ new
             ∧ (gitCommit commitMessage, rc) ∈ new
             ∧ failure rc = None).
Proof.
  eapply sat_mono; [apply generateCommitMessage_sat|].
  intros result new Hout p Hin.
  assert (∀ steps : list event,
    Forall (λ ev, analysisStep ev.1) steps →
    (Print (str "Committed successfully!" ++ [LF]), p) ∉ steps) as Hsteps.
  { intros steps Hall Hin'. eapply Forall_forall in Hall; [|exact Hin'].
    apply analysisStep_inv in Hall as [(? & ? & _)|(? & _ & [?|?])]; done. }
  assert (∀ commitMessage answer asked,
    offered aliasEnv promptOrder typesOrder mode providerFlag commitMessage answer asked →
    (Print (str "Committed successfully!" ++ [LF]), p) ∉ asked) as Hasked.
  { intros commitMessage answer asked Hoff Hin'.
    destruct (offered_prints _ _ _ _ _ _ _ _ _ Hoff Hin') as [[text' ?]|[?|?]]; done. }
  assert (∀ commitMessage result' runs,
    commits mode commitMessage result' runs →
    (Print (str "Committed successfully!" ++ [LF]), p) ∉ runs) as Hruns.
  { intros commitMessage result' runs Hc Hin'.
    by destruct (commits_inv _ _ _ _ _ Hc Hin') as [?|[? _]]. }
  destruct Hout as [r0 Hr0|r0 Hr0 Hmode|r0 steps err Hr0 Hmode Hall
          |r0 steps analysisInput r err Hr0 Hmode Hall Hpre Hr
          |commitMessage answer asked p0 Hoff Hno
          |commitMessage answer asked runs err Hoff Hyes Hc
          |commitMessage answer asked runs p0 Hoff Hyes Hc].
  - by apply list_elem_of_singleton in Hin.
  - by apply list_elem_of_singleton in Hin.
  - apply elem_of_cons in Hin as [?|Hin]; [done|]. by apply Hsteps in Hin.
  - apply elem_of_cons in Hin as [?|[Hin|Hin]%elem_of_app]; [done| |].
    + by apply Hsteps in Hin.
    + by apply list_elem_of_singleton in Hin.
  - apply elem_of_app in Hin as [Hin|Hin]; [by eapply Hasked in Hin|].
    by apply list_elem_of_singleton in Hin.
  - apply elem_of_app in Hin as [Hin|Hin]; [by eapply Hasked in Hin|].
    by eapply Hruns in Hin.
  - split; [done|].
    apply offered_inv in Hoff as (before & -> & _ & [p' Hp'] & _).
    destruct (commits_succeeded _ _ _ Hc) as (rc & Hrc & Hok).
    exists commitMessage, p', rc. rewrite !elem_of_app. auto.
Qed.

(** X20.  A run in which the user does not confirm changes nothing:
    when the answer read from the terminal is not [y] or [yes] once
    lowered (or could not be read), [generateCommitMessage] runs no
    command with [Run], prints [Commit cancelled.] and returns nil. *)
Theorem declined_commit_runs_nothing promptOrder typesOrder mode providerFlag :
  sat (generateCommitMessage env ToLower aliasEnv promptOrder typesOrder mode providerFlag)
    (λ result new,
       ∀ answer, (Scanln, answer) ∈ new → ¬ confirmed ToLower answer →
         result = None
         ∧ (∀ ev, ev ∈ new → ∀ cmd, ev.1 ≠ CmdRun cmd)
         ∧ ∃ p, (Print (str "Commit cancelled." ++ [LF]), p) ∈ new).
Proof.
  eapply sat_mono; [apply generateCommitMessage_sat|].
  intros result new Hout answer Hin Hno.
  assert (∀ steps : list event,
    Forall (λ ev, analysisStep ev.1) steps → (Scanln, answer) ∉ steps) as Hsteps.
  { intros steps Hall Hin'. eapply Forall_forall in Hall; [|exact Hin'].
    apply analysisStep_inv in Hall as [(? & ? & _)|(? & _ & [?|?])]; done. }
  assert (∀ commitMessage answer' asked,
    offered aliasEnv promptOrder typesOrder mode providerFlag commitMessage answer' asked →
    (Scanln, answer) ∈ asked → answer' = answer) as Hasked.
  { intros commitMessage answer' asked (before & -> & Hquiet & _)%offered_inv
      [Hin'|Hin']%elem_of_app.
    - by apply Hquiet, quiet_inv in Hin' as [_ Hin'].
    - apply list_elem_of_singleton in Hin'. congruence. }
  assert (∀ commitMessage result' runs,
    commits mode commitMessage result' runs → (Scanln, answer) ∉ runs) as Hruns.
  { intros commitMessage result' runs Hc Hin'.
    by destruct (commits_inv _ _ _ _ _ Hc Hin') as [?|[? _]]. }
  destruct Hout as [r0 Hr0|r0 Hr0 Hmode|r0 steps err Hr0 Hmode Hall
          |r0 steps analysisInput r err Hr0 Hmode Hall Hpre Hr
          |commitMessage answer' asked p Hoff Hno'
          |commitMessage answer' asked runs err Hoff Hyes Hc
          |commitMessage answer' asked runs p Hoff Hyes Hc].
  - by apply list_elem_of_singleton in Hin.
  - by apply list_elem_of_singleton in Hin.
  - apply elem_of_cons in Hin as [?|Hin]; [done|]. by apply Hsteps in Hin.
  - apply elem_of_cons in Hin as [?|[Hin|Hin]%elem_of_app]; [done| |].
    + by apply Hsteps in Hin.
    + by apply list_elem_of_singleton in Hin.
  - split; [done|]. split.
    + intros ev [Hev|Hev]%elem_of_app cmd.
      * apply offered_inv in Hoff as (before & -> & Hquiet & _).
        apply elem_of_app in Hev as [Hev|Hev].
        -- by apply Hquiet, quiet_inv in Hev as [Hev _].
        -- by apply list_elem_of_singleton in Hev as ->.
      * by apply list_elem_of_singleton in Hev as ->.
    + exists p. apply elem_of_app. right. by apply list_elem_of_singleton.
  - apply elem_of_app in Hin as [Hin|Hin]; [|by eapply Hruns in Hin].
    apply (Hasked _ _ _ Hoff) in Hin as ->. done.
  - apply elem_of_app in Hin as [Hin|[Hin|Hin]%elem_of_app];
      [|by eapply Hruns in Hin|by apply list_elem_of_singleton in Hin].
    apply (Hasked _ _ _ Hoff) in Hin as ->. done.
Qed.

(** X21.  A mode other than [staged], [all] and [untracked] is
    reported and runs nothing: in a repository, [generateCommitMessage]
    only checks the repository and returns the error
    [no changes found to analyze: unknown mode: ] followed by the mode. *)
Theorem generateCommitMessage_unknown_mode promptOrder typesOrder mode providerFlag :
  mode ∉ modes →
  sat (generateCommitMessage env ToLower aliasEnv promptOrder typesOrder mode providerFlag)
    (λ result new,
       ∃ r0, new = [(revParse, r0)]
             ∧ result = Some (if bool_decide (failure r0 = None)
                              then errorString
                                     (str "no changes found to analyze: unknown mode: " ++ mode)
                              else ErrNotGitRepo)).
Proof.
  intros Hmode.
  eapply sat_mono; [apply generateCommitMessage_sat|].
  intros result new Hout.
  assert (∀ commitMessage answer asked,
    ¬ offered aliasEnv promptOrder typesOrder mode providerFlag commitMessage answer asked)
    as Hasked.
  { intros commitMessage answer asked Hoff. by destruct Hoff. }
  destruct Hout as [r0 Hr0|r0 Hr0 _|r0 steps err Hr0 Hmode' Hall
          |r0 steps analysisInput r err Hr0 Hmode' Hall Hpre Hr
          |commitMessage answer asked p Hoff Hno
          |commitMessage answer asked runs err Hoff Hyes Hc
          |commitMessage answer asked runs p Hoff Hyes Hc];
    try done; try (by apply Hasked in Hoff).
  - exists r0. by rewrite bool_decide_eq_false_2.
  - exists r0. by rewrite bool_decide_eq_true_2.
Qed.

End RunFacts.

(** * Examples of runs *)

Section Runs.
Import strings fmt regexp commitrules main.

(** In the mode [staged], the provider answers with a line that the
    validator refuses, and the user types [y]: the warning is printed,
    and the line is committed. *)
Example invalid_message_is_committed :
  let types := [str "chore"; str "test"; str "refactor"; str "style";
                str "docs"; str "fix"; str "feat"] in
  let run :=
    generateCommitMessage (sampleWorld (str "update stuff") (str "y")) (λ s, s) (λ _, [])
      types types (str "staged") [] [] in
  run.1 = Some None
  ∧ err (ValidateCommitMessage types (str "update stuff")) = Some MalformedFormat
  ∧ drop 6 run.2.*1
    = [Print (str "Warning: commit message must follow format: type(scope): description"
                ++ [LF]);
       Print (shownMessage (str "update stuff"));
       Print question;
       Scanln;
       gitCommit (str "update stuff");
       Print (str "Committed successfully!" ++ [LF])].
Proof. by vm_compute. Qed.

Lemma generateCommitMessage_unknown_mode_witness :
  (str "amend" ∉ modes)
  ∧ ∃ result new,
      generateCommitMessage (sampleWorld [] []) (λ s, s) (λ _, []) [] [] (str "amend") [] []
      = (Some result, [] ++ new)
      ∧ ∃ r0, new = [(revParse, r0)]
              ∧ result = Some (if bool_decide (failure r0 = None)
                               then errorString
                                      (str "no changes found to analyze: unknown mode: amend")
                               else ErrNotGitRepo).
Proof.
  assert (str "amend" ∉ modes) as Hmode by (apply (bool_decide_unpack _); by vm_compute).
  split; [exact Hmode|].
  exact (generateCommitMessage_unknown_mode
           (sampleWorld [] []) (λ s, s) (λ _, []) [] [] (str "amend") [] Hmode []).
Defined.

(** [executeCommit] with another mode. *)
Example executeCommit_other_mode :
  executeCommit (sampleWorld [] []) (str "amend") (str "fix: typo") [] = (None, []).
Proof. reflexivity. Qed.

End Runs.
